(** * wavegen.py: the waveform generator of acq400_hapi

    A shallow embedding of [user_apps/utils/wavegen.py] (class [WaveGen]) and
    the properties of its parameter cyclers, of [normalize], of the NULL
    waveform and of the channel placement done by [generate].

    Modelling conventions.
    - Python [int] is [Z].  Python [float] is [Q]: a float is the exact
      rational value of a finite double.  [float(s)] rounds the literal to the
      nearest double, as Python does; the sums, products and quotients of
      floats are exact: the rounding of arithmetic, overflow to infinity and
      the sign of zero are left out.  Numeric equality of floats is [==] on
      [Q].  Statements that would depend on exact sums or on exact fractional
      parts are worded so that they also hold with rounding.
    - Sequence specs are lists of string tokens, as [tolist] and the command
      line produce them; a character is a code point below 256.  [int(s)]
      follows Python on such strings.  [float(s)] follows Python on the
      literals of finite numbers; [inf], [infinity], [nan] and the literals
      that are rounded to [inf] have no value in [Q], and [float] is [None]
      on them as on a [ValueError]: statements about returned values name the
      tokens they hold for.
    - A raised exception is [None]; it ends the run.
    - The dictionaries [self.ptr], [self.last] and [self.range] are finite
      maps keyed by the attribute name.
    - [self.data] is the flat, channel-interleaved list of samples; samples of
      the [w]-bit output type are [Z] with the wrap-around written out.
      Adding a Python [int] to the array follows NumPy 2: an [int] that the
      output type cannot hold is an [OverflowError].
    - [np.sin] and [np.pi] are variables of the section that holds the
      synthesis engine. *)

From Stdlib Require Import ZArith QArith Qround Qminmax String Ascii List Lia.
From stdpp Require Import gmap strings list fin_maps.

Local Open Scope Z_scope.

(** ** Python primitives *)

Module Py.

(** [s[0]]: [IndexError] on the empty string. *)
Definition first_char (s : string) : option ascii :=
  match s with
  | String c _ => Some c
  | EmptyString => None
  end.

(** [s.lstrip('+')] *)
Fixpoint lstrip_plus (s : string) : string :=
  match s with
  | String c s' => if Ascii.eqb c "+" then lstrip_plus s' else s
  | EmptyString => EmptyString
  end.

(** [s.split(sep)] for a separator of one character. *)
Fixpoint split (sep : ascii) (s : string) : list string :=
  match s with
  | EmptyString => [EmptyString]
  | String c s' =>
      if Ascii.eqb c sep then EmptyString :: split sep s'
      else match split sep s' with
           | w :: ws => String c w :: ws
           | [] => [String c EmptyString]
           end
  end.

(** [l[i]], with Python's negative indices; [IndexError] out of range. *)
Definition getitem {A} (l : list A) (i : Z) : option A :=
  let n := Z.of_nat (length l) in
  if i <? 0 then (if i + n <? 0 then None else l !! Z.to_nat (i + n))
  else l !! Z.to_nat i.

(** [min([a, b])] and [max([a, b])] on strings: code-point order. *)
Definition min2 (a b : string) : string := if String.ltb b a then b else a.
Definition max2 (a b : string) : string := if String.ltb a b then b else a.

Definition digit (c : ascii) : option Z :=
  let n := Z.of_N (N_of_ascii c) in
  if (48 <=? n) && (n <=? 57) then Some (n - 48) else None.

Fixpoint digits_val (s : string) (acc : Z) : option Z :=
  match s with
  | EmptyString => Some acc
  | String c s' => d ← digit c; digits_val s' (10 * acc + d)
  end.

Definition is_empty (s : string) : bool :=
  match s with EmptyString => true | _ => false end.

Definition unsigned_decimal (s : string) : option Q :=
  match split "." s with
  | [a] => if is_empty a then None else n ← digits_val a 0; Some (inject_Z n)
  | [a; b] =>
      if is_empty a && is_empty b then None
      else n ← digits_val (a ++ b) 0;
           Some (Qmake n (Z.to_pos (10 ^ Z.of_nat (String.length b))))
  | _ => None
  end.

(** An optional sign and one or more digits. *)
Definition signed_digits (s : string) : option Z :=
  match s with
  | String c s' =>
      if Ascii.eqb c "+" then (if is_empty s' then None else digits_val s' 0)
      else if Ascii.eqb c "-" then
             (if is_empty s' then None else Z.opp <$> digits_val s' 0)
      else digits_val s 0
  | EmptyString => None
  end.

(** The white space that [int] and [float] strip from a string. *)
Definition is_space (c : ascii) : bool :=
  let n := N_of_ascii c in
  (((9 <=? n) && (n <=? 13)) || (n =? 32) || (n =? 133) || (n =? 160))%N.

Fixpoint lstrip (s : string) : string :=
  match s with
  | String c s' => if is_space c then lstrip s' else s
  | EmptyString => EmptyString
  end.

Fixpoint rstrip (s : string) : string :=
  match s with
  | String c s' =>
      match rstrip s' with
      | EmptyString => if is_space c then EmptyString else String c EmptyString
      | t => String c t
      end
  | EmptyString => EmptyString
  end.

(** [s] without the white space at its ends. *)
Definition strip (s : string) : string := rstrip (lstrip s).

Definition is_digit (c : ascii) : bool :=
  match digit c with Some _ => true | None => false end.

(** The underscores of a numeric literal: each one stands between two
    digits.  [prev] is the character before [s]. *)
Fixpoint underscores_ok (prev : ascii) (s : string) : bool :=
  match s with
  | EmptyString => negb (Ascii.eqb prev "_")
  | String c s' =>
      (if Ascii.eqb c "_" then is_digit prev
       else negb (Ascii.eqb prev "_") || is_digit c)
      && underscores_ok c s'
  end.

Fixpoint remove_underscores (s : string) : string :=
  match s with
  | String c s' =>
      if Ascii.eqb c "_" then remove_underscores s'
      else String c (remove_underscores s')
  | EmptyString => EmptyString
  end.

(** A numeric literal as [int] and [float] read it: underscores checked and
    removed, white space stripped at both ends. *)
Definition literal (s : string) : option string :=
  if underscores_ok Ascii.zero s then Some (strip (remove_underscores s)) else None.

(** The mantissa and the exponent of a literal, split at the first [e] or
    [E]. *)
Fixpoint split_exp (s : string) : string * option string :=
  match s with
  | EmptyString => (EmptyString, None)
  | String c s' =>
      if Ascii.eqb c "e" || Ascii.eqb c "E" then (EmptyString, Some s')
      else let '(m, x) := split_exp s' in (String c m, x)
  end.

Definition scale10 (q : Q) (e : Z) : Q :=
  if 0 <=? e then (q * inject_Z (10 ^ e))%Q
  else (q / inject_Z (10 ^ (- e)))%Q.

Definition unsigned_float (s : string) : option Q :=
  let '(m, x) := split_exp s in
  q ← unsigned_decimal m;
  match x with
  | None => Some q
  | Some xs => e ← signed_digits xs; Some (scale10 q e)
  end.

(** [a / d >= 2^k], for positive [a] and [d]. *)
Definition ratio_ge_pow2 (a d k : Z) : bool :=
  if 0 <=? k then d * 2 ^ k <=? a else d <=? a * 2 ^ (- k).

(** The double nearest to [q], ties to the even mantissa, as an exact
    rational: a mantissa of at most 53 bits times a power of two that is not
    below [2^-1074].  [None] when the nearest double is [inf]. *)
Definition to_double (q : Q) : option Q :=
  let a := Z.abs (Qnum q) in
  let d := Zpos (Qden q) in
  if a =? 0 then Some 0%Q
  else
    let l := Z.log2 a - Z.log2 d in
    let k := if ratio_ge_pow2 a d l then l else l - 1 in
    let e := Z.max (k - 52) (- 1074) in
    let num := if 0 <=? e then a else a * 2 ^ (- e) in
    let den := if 0 <=? e then d * 2 ^ e else d in
    let m := num / den in
    let r := num mod den in
    let up :=
      match 2 * r ?= den with
      | Lt => false
      | Gt => true
      | Eq => Z.odd m
      end in
    let m' := Z.sgn (Qnum q) * (if up then m + 1 else m) in
    if 0 <=? e then
      if 2 ^ 1024 <=? Z.abs m' * 2 ^ e then None
      else Some (inject_Z (m' * 2 ^ e))
    else Some (Qred (Qmake m' (Z.to_pos (2 ^ (- e))))).

(** [float(s)] on the literal of a finite number: sign, digits with an
    optional point, optional exponent, rounded to the nearest double.  [None]
    is a [ValueError], or a value that is not finite: [inf], [infinity],
    [nan], or a literal that is rounded to [inf]. *)
Definition float (s : string) : option Q :=
  t ← literal s;
  q ← match t with
      | String c t' =>
          if Ascii.eqb c "+" then unsigned_float t'
          else if Ascii.eqb c "-" then Qopp <$> unsigned_float t'
          else unsigned_float t
      | EmptyString => None
      end;
  to_double q.

(** [int(s)]: a decimal integer literal. *)
Definition int_of_str (s : string) : option Z :=
  t ← literal s; signed_digits t.

(** [int(x)] on a float: truncation toward zero. *)
Definition int (x : Q) : Z := Z.quot (Qnum x) (Zpos (Qden x)).

(** [x % 1] on a float: the result has the sign of the divisor. *)
Definition mod1 (x : Q) : Q := (x - inject_Z (Qfloor x))%Q.

(** [round(x, 3)]: to the nearest multiple of 1/1000, ties to even. *)
Definition round3 (x : Q) : Q :=
  let y := (x * inject_Z 1000)%Q in
  let f := Qfloor y in
  let r := (y - inject_Z f)%Q in
  let up :=
    match (r ?= 1 # 2)%Q with
    | Lt => false
    | Gt => true
    | Eq => Z.odd f
    end in
  Qmake (if up then f + 1 else f) 1000.

End Py.

(** ** The sequence cyclers

    [self.ptr], [self.last] and [self.range], keyed by attribute name. *)

Record Cyclers := mkCyclers {
  ptr : gmap string Z;
  last : gmap string Q;
  range : gmap string (string * option string)
}.

Definition fresh : Cyclers := mkCyclers ∅ ∅ ∅.

Definition set_ptr (key : string) (p : Z) (st : Cyclers) : Cyclers :=
  mkCyclers (<[key := p]> (ptr st)) (last st) (range st).

Definition set_last (key : string) (v : Q) (st : Cyclers) : Cyclers :=
  mkCyclers (ptr st) (<[key := v]> (last st)) (range st).

Definition set_range (key : string) (r : string * option string)
    (st : Cyclers) : Cyclers :=
  mkCyclers (ptr st) (last st) (<[key := r]> (range st)).

(** [if key not in self.ptr: self.ptr[key] = 0; self.last[key] = 0] *)
Definition init_key (key : string) (st : Cyclers) : Cyclers :=
  match ptr st !! key with
  | Some _ => st
  | None => set_last key 0%Q (set_ptr key 0 st)
  end.

(** [str(arr[0])[0] == "+"] *)
Definition accumulate (arr : list string) : option bool :=
  a0 ← head arr; c ← Py.first_char a0; Some (Ascii.eqb c "+").

(** [arr[self.ptr[key] % len(arr)]] *)
Definition current (arr : list string) (key : string) (st : Cyclers)
    : option string :=
  p ← ptr st !! key;
  Py.getitem arr (p mod Z.of_nat (length arr)).

(** [(arr[0].lstrip('+').split(":") + [None])[:2]] *)
Definition parse_range (a0 : string) : string * option string :=
  match Py.split ":" (Py.lstrip_plus a0) with
  | r0 :: r1 :: _ => (r0, Some r1)
  | [r0] => (r0, None)
  | [] => (EmptyString, None)
  end.

(** Accumulate mode, lines 182-184: on the first pull the range is parsed
    and its first part becomes the value. *)
Definition acc_first (arr : list string) (key : string) (value : string)
    (st : Cyclers) : option (string * Cyclers) :=
  match range st !! key with
  | Some _ => Some (value, st)
  | None =>
      a0 ← head arr;
      let r := parse_range a0 in
      Some (fst r, set_range key r st)
  end.

(** Lines 186-188: a token that starts with "+" is stepped over. *)
Definition acc_hold (arr : list string) (key : string) (value : string)
    (st : Cyclers) : option (string * Cyclers) :=
  c ← Py.first_char value;
  if Ascii.eqb c "+" then
    p ← ptr st !! key;
    let st' := set_ptr key (p + 1) st in
    v ← current arr key st';
    Some (v, st')
  else Some (value, st).

(** The token whose float value is added on this pull, and the state in
    which it is added. *)
Definition acc_select (arr : list string) (key : string) (st : Cyclers)
    : option (string * Cyclers) :=
  let st0 := init_key key st in
  value ← current arr key st0;
  '(value, st1) ← acc_first arr key value st0;
  acc_hold arr key value st1.

(** [float(min(self.range[key]))] and [float(max(self.range[key]))];
    [None] stands for a range without a second part ([if self.range[key][1]]
    is false for [None] and for the empty string). *)
Definition bounds (r : string * option string) : option (option (Q * Q)) :=
  match snd r with
  | Some r1 =>
      if Py.is_empty r1 then Some None
      else lower ← Py.float (Py.min2 (fst r) r1);
           upper ← Py.float (Py.max2 (fst r) r1);
           Some (Some (lower, upper))
  | None => Some None
  end.

(** [temp < lower or temp >= upper] *)
Definition outside (lower upper temp : Q) : bool :=
  negb (Qle_bool lower temp) || Qle_bool upper temp.

(** Lines 198-201. *)
Definition acc_advance (key : string) (value : string) (st : Cyclers)
    : option (Q * Cyclers) :=
  l ← last st !! key;
  d ← Py.float value;
  let v := (l + d)%Q in
  p ← ptr st !! key;
  Some (v, set_last key v (set_ptr key (p + 1) st)).

(** Lines 190-201. *)
Definition acc_step (key : string) (value : string) (st : Cyclers)
    : option (Q * Cyclers) :=
  r ← range st !! key;
  b ← bounds r;
  match b with
  | Some (lower, upper) =>
      l ← last st !! key;
      d ← Py.float value;
      if outside lower upper (l + d)%Q then
        start ← Py.float (fst r);
        Some (start, set_last key start st)
      else acc_advance key value st
  | None => acc_advance key value st
  end.

(** [__cycler_generic(arr, key)] *)
Definition cycler_generic (arr : list string) (key : string) (st : Cyclers)
    : option (Q * Cyclers) :=
  let st0 := init_key key st in
  acc ← accumulate arr;
  value ← current arr key st0;
  if negb acc then
    p ← ptr st0 !! key;
    let st1 := set_ptr key (p + 1) st0 in
    v ← Py.float value;
    Some (v, st1)
  else
    '(value, st1) ← acc_first arr key value st0;
    '(value, st2) ← acc_hold arr key value st1;
    acc_step key value st2.

(** [n] successive pulls on one key. *)
Fixpoint pulls (arr : list string) (key : string) (n : nat) (st : Cyclers)
    : option (list Q * Cyclers) :=
  match n with
  | O => Some ([], st)
  | S n' =>
      '(v, st1) ← cycler_generic arr key st;
      '(vs, st2) ← pulls arr key n' st1;
      Some (v :: vs, st2)
  end.

(** [normalize(n)] *)
Definition normalize (n : Q) : Q :=
  if Qeq_bool n 0 then 0%Q
  else
    let m := Py.mod1 n in
    if Qeq_bool m 0 then 1%Q else Py.round3 m.

(** ** The engine: configuration

    The fields [__init__] sets, apart from the cycler dictionaries. *)

Inductive DType := Int16 | Int32.

Definition bits (d : DType) : Z :=
  match d with Int16 => 16 | Int32 => 32 end.

Definition dlen_of (d : DType) : Z :=
  match d with Int16 => 2 | Int32 => 4 end.

(** [np.iinfo(dtype).max] *)
Definition iinfo_max (d : DType) : Z := 2 ^ (bits d - 1) - 1.

(** Two's-complement wrap-around of the output type. *)
Definition wrap (d : DType) (x : Z) : Z :=
  (x + 2 ^ (bits d - 1)) mod 2 ^ bits d - 2 ^ (bits d - 1).

Definition representable (d : DType) (x : Z) : Prop :=
  - 2 ^ (bits d - 1) <= x < 2 ^ (bits d - 1).

Definition representableb (d : DType) (x : Z) : bool :=
  (- 2 ^ (bits d - 1) <=? x) && (x <? 2 ^ (bits d - 1)).

Inductive WaveFn := SINE | RAMP | SQUARE | NULL.

Record WaveGen := mkWaveGen {
  nchan : Z;
  cycles : Z;
  phase : list string;
  crop : list string;
  spos : list string;
  scale : list string;
  voltage : Z;
  offset : list string;
  wavelengths : list string;
  wavelength : Z;
  totallength : Z;
  datalength : Z;
  dtype : DType;
  wave : gmap Z WaveFn
}.

Definition dlen (self : WaveGen) : Z := dlen_of (dtype self).
Definition max_value (self : WaveGen) : Z := iinfo_max (dtype self).

(** [__init_wavelength]: the first token, as an integer, times [cycles]. *)
Definition init_wavelength (wavelength : list string) (cycles : Z) : option Z :=
  w0 ← head wavelength;
  n ← Py.int_of_str w0;
  Some (n * cycles).

(** [__init_dtype] *)
Definition init_dtype (dsize : Z) : option DType :=
  if (dsize =? 2) || (dsize =? 16) then Some Int16
  else if (dsize =? 4) || (dsize =? 32) then Some Int32
  else None.

(** [range(a, b, step)] for a positive step. *)
Definition py_range (a b step : Z) : list Z :=
  (λ i, a + i * step) <$> seqZ 0 ((b - a + step - 1) `div` step).

Definition upper_char (c : ascii) : ascii :=
  let n := N_of_ascii c in
  if ((97 <=? n) && (n <=? 122))%N then ascii_of_N (n - 32) else c.

Fixpoint upper (s : string) : string :=
  match s with
  | String c s' => String (upper_char c) (upper s')
  | EmptyString => EmptyString
  end.

(** ['-' in chan] *)
Fixpoint contains (c : ascii) (s : string) : bool :=
  match s with
  | String c' s' => Ascii.eqb c c' || contains c s'
  | EmptyString => false
  end.

(** [get_channels] *)
Definition get_channels (nchan : Z) (chans : string) : option (list Z) :=
  if String.eqb (upper chans) "ALL" then Some (py_range 1 (nchan + 1) 1)
  else if String.eqb (upper chans) "ODD" then Some (py_range 1 (nchan + 1) 2)
  else if String.eqb (upper chans) "EVEN" then Some (py_range 2 (nchan + 1) 2)
  else
    mjoin <$> mapM (λ chan,
      if contains "-" chan then
        ns ← mapM Py.int_of_str (Py.split "-" chan);
        a ← ns !! 0%nat;
        b ← ns !! 1%nat;
        Some (py_range a (b + 1) 1)
      else n ← Py.int_of_str chan; Some [n]) (Py.split "," chans).

Definition wave_funcs (selector : string) : option WaveFn :=
  if String.eqb selector "SINE" then Some SINE
  else if String.eqb selector "RAMP" then Some RAMP
  else if String.eqb selector "SQUARE" then Some SQUARE
  else if String.eqb selector "NULL" then Some NULL
  else None.

(** [__init_wave]: later selectors overwrite earlier ones.  The selector is
    looked up once per channel, so an unknown name is a [KeyError] only when
    it has a channel. *)
Definition init_wave (nchan : Z) (wave : string) : option (gmap Z WaveFn) :=
  foldl (λ acc value,
    wave_map ← acc;
    match Py.split ":" value with
    | [selector; channels] =>
        chans ← get_channels nchan channels;
        match chans with
        | [] => Some wave_map
        | _ =>
            f ← wave_funcs selector;
            Some (foldl (λ m chan, <[chan := f]> m) wave_map chans)
        end
    | _ => None
    end) (Some ∅) (Py.split "/" wave).

(** The keyword arguments of [WaveGen(...)]; sequence arguments are given as
    token lists, which [tolist] passes through. *)
Record Args := mkArgs {
  a_nchan : Z;
  a_cycles : Z;
  a_wavelength : list string;
  a_totallength : option Z;
  a_dsize : Z;
  a_wave : string;
  a_phase : list string;
  a_scale : list string;
  a_crop : list string;
  a_spos : list string;
  a_voltage : Z;
  a_offset : list string
}.

(** The defaults of [__init__]. *)
Definition default_args : Args :=
  mkArgs 8 1 ["20000"] None 2 "SINE:ALL" ["0"] ["1"] ["0"] ["0"] 10 ["0"].

(** [__init__] *)
Definition init (a : Args) : option WaveGen :=
  wl ← init_wavelength (a_wavelength a) (a_cycles a);
  let tl := match a_totallength a with
            | Some t => if t =? 0 then wl else t
            | None => wl
            end in
  dt ← init_dtype (a_dsize a);
  wv ← init_wave (a_nchan a) (a_wave a);
  Some (mkWaveGen (a_nchan a) (a_cycles a) (a_phase a) (a_crop a) (a_spos a)
          (a_scale a) (a_voltage a) (a_offset a) (a_wavelength a) wl tl
          (tl * a_nchan a) dt wv).

(** [__get_wave(chan)] *)
Definition get_wave (self : WaveGen) (chan : Z) : option WaveFn :=
  wave self !! chan.

(** ** Slices and the interleaved buffer *)

(** [slice(a, b).indices(n)] for step 1: negative bounds count from the end,
    and both are clipped to [0, n]. *)
Definition slice_index (n i : Z) : Z :=
  if i <? 0 then Z.max (i + n) 0 else Z.min i n.

Definition slice_start {A} (l : list A) (a : Z) : nat :=
  Z.to_nat (slice_index (Z.of_nat (length l)) a).

Definition slice_len {A} (l : list A) (a b : Z) : nat :=
  let n := Z.of_nat (length l) in
  Z.to_nat (slice_index n b - slice_index n a).

(** [l[a:b]] *)
Definition getslice {A} (l : list A) (a b : Z) : list A :=
  take (slice_len l a b) (drop (slice_start l a) l).

(** [l[a:b] = src] on a numpy array: the shapes must agree, or the source
    has one element, which is broadcast; otherwise [ValueError]. *)
Definition setslice (l : list Z) (a b : Z) (src : list Z) : option (list Z) :=
  let s := slice_start l a in
  let k := slice_len l a b in
  if (length src =? k)%nat then Some (take s l ++ src ++ drop (s + k) l)
  else match src with
       | [x] => Some (take s l ++ replicate k x ++ drop (s + k) l)
       | _ => None
       end.

(** [len(data[chan::nchan])] *)
Definition track_len (nchan chan : nat) (data : list Z) : nat :=
  ((length data + nchan - 1 - chan) / nchan)%nat.

(** [data[chan::nchan]]: the samples at [chan], [chan + nchan], ... *)
Definition track (nchan chan : nat) (data : list Z) : list Z :=
  (λ i, nth (chan + i * nchan) data 0) <$> seq 0 (track_len nchan chan data).

(** Writing [new] through the view [data[chan::nchan]]. *)
Definition store_track (nchan chan : nat) (new : list Z) (data : list Z)
    : list Z :=
  imap (λ j x,
    if ((chan <=? j) && ((j - chan) mod nchan =? 0))%nat
    then nth ((j - chan) / nchan) new x
    else x) data.

(** ** Waveforms and synthesis *)

(** The resolved parameters of one channel, as [generate] prints them. *)
Record Plan := mkPlan {
  p_chan : Z;
  p_wave : WaveFn;
  p_offset : Z;
  p_phase : Q;
  p_spos : Z;
  p_scale : Q;
  p_wavelength : Z;
  p_crop : Z
}.

(** What [generate] prints: the header, and one line per channel that has a
    waveform function. *)
Inductive Line :=
  | Header (nchan dlen totallength : Z)
  | Channel (p : Plan).

Section Synthesis.

(** [np.sin] and [np.pi]. *)
Variable np_sin : Q -> Q.
Variable np_pi : Q.

(** [np.deg2rad(x)] *)
Definition deg2rad (x : Q) : Q := (x * (np_pi / inject_Z 180))%Q.

(** [np.sign(x)] *)
Definition np_sign (x : Q) : Q :=
  match (x ?= 0)%Q with
  | Lt => (-1)%Q
  | Eq => 0%Q
  | Gt => 1%Q
  end.

(** [np.linspace(start, stop, num)]: [ValueError] on a negative [num]. *)
Definition linspace (start stop : Q) (num : Z) : option (list Q) :=
  if num <? 0 then None
  else if num =? 1 then Some [start]
  else
    let step := ((stop - start) / inject_Z (num - 1))%Q in
    Some ((λ i, (start + inject_Z i * step)%Q) <$> seqZ 0 num).

(** [np.zeros(n)]: [ValueError] on a negative [n]. *)
Definition np_zeros {A} (zero : A) (n : Z) : option (list A) :=
  if n <? 0 then None else Some (replicate (Z.to_nat n) zero).

Definition gen_sine (self : WaveGen) (wavelength : Z) (phase : Q)
    : option (list Q) :=
  xs ← linspace (- phase)%Q
         (- phase + inject_Z (cycles self * 2) * np_pi)%Q wavelength;
  Some (map np_sin xs).

Definition gen_ramp (self : WaveGen) (wavelength : Z) (phase : Q)
    : option (list Q) :=
  xs ← linspace 0%Q (inject_Z (cycles self)) wavelength;
  Some (map (λ x, Py.mod1 (x + phase)) xs).

Definition gen_square (self : WaveGen) (wavelength : Z) (phase : Q)
    : option (list Q) :=
  ys ← gen_sine self wavelength phase;
  Some (map np_sign ys).

(** [__gen_null]: the length is [self.wavelength], not the argument. *)
Definition gen_null (self : WaveGen) (wavelength_arg : Z) (phase_arg : Q)
    : option (list Q) :=
  np_zeros 0%Q (wavelength self).

Definition gen (f : WaveFn) : WaveGen -> Z -> Q -> option (list Q) :=
  match f with
  | SINE => gen_sine
  | RAMP => gen_ramp
  | SQUARE => gen_square
  | NULL => gen_null
  end.

(** [.astype(self.dtype)] on a float array: truncation toward zero. *)
Definition astype (d : DType) (xs : list Q) : list Z :=
  (λ x, wrap d (Py.int x)) <$> xs.

Definition get_scale (self : WaveGen) (st : Cyclers) : option (Q * Cyclers) :=
  '(v, st') ← cycler_generic (scale self) "scale" st;
  Some (normalize v, st').

Definition get_crop (self : WaveGen) (st : Cyclers) : option (Z * Cyclers) :=
  '(v, st') ← cycler_generic (crop self) "crop" st;
  Some (Py.int v, st').

Definition get_wavelength (self : WaveGen) (st : Cyclers)
    : option (Z * Cyclers) :=
  '(v, st') ← cycler_generic (wavelengths self) "wave" st;
  Some (Py.int v * cycles self, st').

Definition get_phase (self : WaveGen) (st : Cyclers) : option (Q * Cyclers) :=
  '(v, st') ← cycler_generic (phase self) "phase" st;
  Some (deg2rad v, st').

Definition get_spos (self : WaveGen) (st : Cyclers) : option (Z * Cyclers) :=
  '(v, st') ← cycler_generic (spos self) "spos" st;
  Some (Py.int v, st').

(** [ZeroDivisionError] when [self.voltage] is 0. *)
Definition get_offset (self : WaveGen) (st : Cyclers) : option (Z * Cyclers) :=
  '(v, st') ← cycler_generic (offset self) "offset" st;
  if voltage self =? 0 then None
  else Some (Py.int (v / inject_Z (voltage self) * inject_Z (max_value self))%Q,
             st').

(** Lines 141-146: one pull on each of the six cyclers. *)
Definition resolve (self : WaveGen) (chan : Z) (f : WaveFn) (st : Cyclers)
    : option (Plan * Cyclers) :=
  '(scale, st) ← get_scale self st;
  '(wavelength, st) ← get_wavelength self st;
  '(phase, st) ← get_phase self st;
  '(crop, st) ← get_crop self st;
  '(spos, st) ← get_spos self st;
  '(offset, st) ← get_offset self st;
  Some (mkPlan (chan + 1) f offset phase spos scale wavelength crop, st).

(** The destination window [d0, d1) of lines 148-149. *)
Definition d0 (self : WaveGen) (p : Plan) : Z :=
  Z.min (0 + p_spos p) (totallength self).

Definition d1 (self : WaveGen) (p : Plan) : Z :=
  Z.min (d0 self p + p_wavelength p - p_crop p) (totallength self).

(** Line 157: the track of the channel [p_chan p - 1] after the window has
    been written. *)
Definition place (self : WaveGen) (p : Plan) (trk : list Z)
    : option (list Z) :=
  let w0 := 0 in
  let w1 := d1 self p - d0 self p in
  ys ← gen (p_wave p) self (p_wavelength p) (p_phase p);
  let samples :=
    astype (dtype self)
      ((λ y, y * (inject_Z (max_value self) * p_scale p))%Q <$> ys) in
  setslice trk (d0 self p) (d1 self p) (getslice samples w0 w1).

(** Line 158: [+= offset] on the whole track.  The offset is a Python
    [int]: when the output type cannot hold it the addition raises; the sums
    wrap around. *)
Definition add_offset (self : WaveGen) (offset : Z) (trk : list Z)
    : option (list Z) :=
  if representableb (dtype self) offset
  then Some ((λ x, wrap (dtype self) (x + offset)) <$> trk)
  else None.

(** [print(...)] unless [hush]. *)
Definition print (hush : bool) (l : Line) (out : list Line) : list Line :=
  if hush then out else out ++ [l].

(** The state of a run: the buffer, the parameters resolved for the channels
    processed so far (the local variables of the loop body, kept for the
    statements), the lines printed so far, the cyclers. *)
Definition Run : Type := list Z * list Plan * list Line * Cyclers.

(** The body of the loop of [generate] for one [chan]. *)
Definition process_channel (self : WaveGen) (hush : bool) (chan : Z) (r : Run)
    : option Run :=
  let '(data, plans, out, st) := r in
  match get_wave self (chan + 1) with
  | None => Some r
  | Some gen_wave =>
      '(p, st') ← resolve self chan gen_wave st;
      let n := Z.to_nat (nchan self) in
      let c := Z.to_nat chan in
      let out' := print hush (Channel p) out in
      trk ← place self p (track n c data);
      trk' ← add_offset self (p_offset p) trk;
      Some (store_track n c trk' data, plans ++ [p], out', st')
  end.

Fixpoint process_channels (self : WaveGen) (hush : bool) (chans : list Z)
    (r : Run) : option Run :=
  match chans with
  | [] => Some r
  | chan :: rest =>
      r' ← process_channel self hush chan r;
      process_channels self hush rest r'
  end.

(** [generate(hush)]: [np.zeros] fails on a negative length, and
    [reshape(-1, nchan)] on [nchan <= 0] and on a length that [nchan] does
    not divide. *)
Definition generate (self : WaveGen) (hush : bool) (st : Cyclers)
    : option Run :=
  let out :=
    print hush (Header (nchan self) (dlen self) (totallength self)) [] in
  data ← np_zeros 0 (datalength self);
  if (nchan self <=? 0) || negb (datalength self mod nchan self =? 0) then None
  else process_channels self hush (seqZ 0 (nchan self)) (data, [], out, st).

End Synthesis.

(** A rational stand-in for the numeric library, to run the engine on
    concrete inputs: 355/113 for pi and Bhaskara's formula for the sine. *)
Definition pi_q : Q := 355 # 113.

Definition sin_q (x : Q) : Q :=
  let t := (x / (inject_Z 2 * pi_q))%Q in
  let y := ((t - inject_Z (Qfloor t)) * (inject_Z 2 * pi_q))%Q in
  let half (z : Q) : Q :=
    (inject_Z 16 * z * (pi_q - z) /
     (inject_Z 5 * pi_q * pi_q - inject_Z 4 * z * (pi_q - z)))%Q in
  if Qle_bool y pi_q then Qred (half y) else Qred (- half (y - pi_q)%Q)%Q.

(** ** Vocabulary of the statements *)

(** The cursor of a key; a key not yet pulled stands at 0. *)
Definition cursor (st : Cyclers) (key : string) : Z :=
  default 0 (ptr st !! key).

(** [float(spec[i % len(spec)])] *)
Definition spec_value (arr : list string) (i : nat) : option Q :=
  tok ← arr !! (i mod length arr)%nat; Py.float tok.

(** A float that is an exact integer. *)
Definition is_integer (x : Q) : Prop := ∃ z : Z, x == inject_Z z.


(** The attribute keys of the six cyclers, in the order [generate] pulls
    them. *)
Definition keys : list string :=
  ["scale"; "wave"; "phase"; "crop"; "spos"; "offset"].

Definition specs (self : WaveGen) : list (list string) :=
  [scale self; wavelengths self; phase self; crop self; spos self;
   offset self].

(** Every cursor stands at [c]. *)
Definition aligned (st : Cyclers) (c : nat) : Prop :=
  Forall (λ key, cursor st key = Z.of_nat c) keys.

(** Every sequence spec is in repeat mode. *)
Definition all_repeat (self : WaveGen) : Prop :=
  Forall (λ arr, accumulate arr = Some false) (specs self).

(** The parameters resolved from the tokens at position [i] of every spec,
    with the unit conversions of the getters. *)
Definition plan_at (np_pi : Q) (self : WaveGen) (chan : Z) (f : WaveFn)
    (i : nat) : option Plan :=
  sc ← spec_value (scale self) i;
  wl ← spec_value (wavelengths self) i;
  ph ← spec_value (phase self) i;
  cr ← spec_value (crop self) i;
  sp ← spec_value (spos self) i;
  off ← spec_value (offset self) i;
  if voltage self =? 0 then None
  else Some (mkPlan (chan + 1) f
               (Py.int (off / inject_Z (voltage self)
                        * inject_Z (max_value self))%Q)
               (deg2rad np_pi ph) (Py.int sp) (normalize sc)
               (Py.int wl * cycles self) (Py.int cr)).

(** The channels with a waveform function, in ascending order. *)
Definition mapped_of (self : WaveGen) (chans : list Z) : list (Z * WaveFn) :=
  omap (λ ch, (λ f, (ch, f)) <$> get_wave self (ch + 1)) chans.

Definition mapped (self : WaveGen) : list (Z * WaveFn) :=
  mapped_of self (seqZ 0 (nchan self)).

(** The plans of the mapped channels when the first of them is resolved from
    position [i], the next from [i + 1], and so on. *)
Fixpoint plans_from (np_pi : Q) (self : WaveGen) (i : nat)
    (cs : list (Z * WaveFn)) : option (list Plan) :=
  match cs with
  | [] => Some []
  | (ch, f) :: cs' =>
      p ← plan_at np_pi self ch f i;
      ps ← plans_from np_pi self (S i) cs';
      Some (p :: ps)
  end.

(** The values of [n] pulls on a key of fresh cyclers, in lowest terms. *)
Definition pull_values (arr : list string) (key : string) (n : nat)
    : option (list Q) :=
  match pulls arr key n fresh with
  | Some (vs, _) => Some (map Qred vs)
  | None => None
  end.

(** The buffer of one [generate] on a new instance, with [sin_q] and [pi_q]. *)
Definition run_data (a : Args) : option (list Z) :=
  match init a with
  | Some self =>
      match generate sin_q pi_q self false fresh with
      | Some (data, _, _, _) => Some data
      | None => None
      end
  | None => None
  end.


(** ** Vocabulary of the further properties *)

(** The cyclers [st'] and [st] hold the same cursor, accumulator and range
    for every key but [key]. *)
Definition same_others (key : string) (st st' : Cyclers) : Prop :=
  ∀ key', key ≠ key' →
    ptr st' !! key' = ptr st !! key' ∧
    last st' !! key' = last st !! key' ∧
    range st' !! key' = range st !! key'.

(** [comma_list(arg)], the argument type of the sequence options. *)
Definition comma_list (arg : string) : list string := Py.split "," arg.

(** One selector of the wave string, as [__init_wave] applies it. *)
Definition wave_step (nchan : Z) (acc : option (gmap Z WaveFn))
    (value : string) : option (gmap Z WaveFn) :=
  wave_map ← acc;
  match Py.split ":" value with
  | [selector; channels] =>
      chans ← get_channels nchan channels;
      match chans with
      | [] => Some wave_map
      | _ =>
          f ← wave_funcs selector;
          Some (foldl (λ m chan, <[chan := f]> m) wave_map chans)
      end
  | _ => None
  end.

(** The channel and the waveform of a resolved plan. *)
Definition line_tag (p : Plan) : Z * WaveFn := (p_chan p - 1, p_wave p).
(** * Checks of the embedding on the module's usage text *)

Example float_samples :
  (Py.float "11.5", Py.float "-0.125", Py.float "+7", Py.float "7:-7",
   Py.float ".5", Py.float "1.", Py.float ".", Py.float "")
  = (Some (23 # 2), Some (-1 # 8), Some (7 # 1), None,
     Some (1 # 2), Some (1 # 1), None, None)%Q.
Proof. vm_compute. reflexivity. Qed.

(** Literals with white space, underscores and exponents, as [float] and
    [int] read them. *)
Example literal_samples :
  (Py.float " 1_0.5 ", Py.float "1e3", Py.float "2.5E-1", Py.float "-1.e+2",
   Py.float "1_", Py.float "1e", Py.float "+ 5", Py.float "1 0",
   Py.int_of_str " 1_000 ", Py.int_of_str "-0_7", Py.int_of_str "1__0",
   Py.int_of_str "1.0")
  = (Some (21 # 2)%Q, Some (1000 # 1)%Q, Some (1 # 4)%Q,
     Some (-100 # 1)%Q, None, None, None, None,
     Some 1000, Some (-7), None, None).
Proof. vm_compute. reflexivity. Qed.

Example split_samples :
  (Py.split ":" "7:-7:-7", Py.split ":" "11.5", Py.split ":" "5:",
   Py.split ":" "")
  = (["7"; "-7"; "-7"], ["11.5"], ["5"; ""], [""]).
Proof. reflexivity. Qed.

Example string_order_samples :
  (Py.min2 "7" "-7", Py.max2 "7" "-7", Py.min2 "5" "10", Py.max2 "5" "10")
  = ("-7", "7", "10", "5").
Proof. reflexivity. Qed.

(** The bound tokens are ordered as strings: for [+5:10] the code takes 10
    for the lower bound and 5 for the upper one, every sum is turned away,
    and each pull returns the first bound. *)
Example string_order_usage :
  (bounds (parse_range "+5:10"),
   pull_values ["+5:10"; "1"] "spos" 4)
  = (Some (Some (10 # 1, 5 # 1)), Some [5; 5; 5; 5])%Q.
Proof. vm_compute. reflexivity. Qed.

(** [--offset=+7:-7:-7,-2]: down from 7 in steps of 2, back to 7 below -7. *)
Example offset_usage :
  pull_values ["+7:-7:-7"; "-2"] "offset" 10
  = Some [7; 5; 3; 1; -1; -3; -5; -7; 7; 5]%Q.
Proof. vm_compute. reflexivity. Qed.

(** [--phase=+11.5], [--spos=+0,40000] and [--scale=+1,-0.125]. *)
Example accumulate_usage :
  (pull_values ["+11.5"] "phase" 4,
   pull_values ["+0"; "40000"] "spos" 4,
   pull_values ["+1"; "-0.125"] "scale" 4)
  = (Some [23 # 2; 23 # 1; 69 # 2; 46 # 1],
     Some [0; 40000 # 1; 80000 # 1; 120000 # 1],
     Some [1; 7 # 8; 3 # 4; 5 # 8])%Q.
Proof. vm_compute. reflexivity. Qed.

(** [--wave=SINE:1/RAMP:2/SQUARE:3] *)
Example wave_usage :
  match init_wave 3 "SINE:1/RAMP:2/SQUARE:3" with
  | Some m => (m !! 1, m !! 2, m !! 3, m !! 4)
               = (Some SINE, Some RAMP, Some SQUARE, None)
  | None => False
  end.
Proof. vm_compute. reflexivity. Qed.

Example channels_samples :
  (get_channels 8 "all", get_channels 8 "ODD", get_channels 8 "EVEN",
   get_channels 8 "1,3-5,8", get_channels 8 "x")
  = (Some [1; 2; 3; 4; 5; 6; 7; 8], Some [1; 3; 5; 7], Some [2; 4; 6; 8],
     Some [1; 3; 4; 5; 8], None).
Proof. vm_compute. reflexivity. Qed.

(** [spos=2, crop=1, wavelength=4, totalLength=4] on one RAMP channel with an
    offset of 1 V: only positions 2 and 3 get synthesized content. *)
Example placement_sample :
  run_data (mkArgs 1 1 ["4"] None 2 "RAMP:ALL" ["0"] ["1"] ["1"] ["2"] 10 ["1"])
  = Some [3276; 3276; 3276; 14198].
Proof. vm_compute. reflexivity. Qed.

(** * Properties *)

(** ** Cursors *)

Lemma ptr_init_key key st :
  ptr (init_key key st) !! key = Some (cursor st key).
Proof.
  unfold init_key, cursor.
  destruct (ptr st !! key) as [p|] eqn:E; simpl; [done|].
  by rewrite lookup_insert_eq.
Qed.

Lemma cursor_set_ptr key p st : cursor (set_ptr key p st) key = p.
Proof. unfold cursor, set_ptr; simpl. by rewrite lookup_insert_eq. Qed.

Lemma cursor_set_ptr_ne key key' p st :
  key ≠ key' → cursor (set_ptr key p st) key' = cursor st key'.
Proof. intros. unfold cursor, set_ptr; simpl. by rewrite lookup_insert_ne. Qed.

Lemma accumulate_length arr b : accumulate arr = Some b → (0 < length arr)%nat.
Proof. destruct arr; [done | simpl; lia]. Qed.

Lemma getitem_mod {A} (l : list A) (i : nat) :
  (0 < length l)%nat →
  Py.getitem l (Z.of_nat i mod Z.of_nat (length l)) = l !! (i mod length l)%nat.
Proof.
  intros Hl. unfold Py.getitem.
  assert (0 <= Z.of_nat i mod Z.of_nat (length l)) by (apply Z.mod_pos_bound; lia).
  destruct (Z.ltb_spec (Z.of_nat i mod Z.of_nat (length l)) 0); [lia|].
  f_equal. rewrite <- Nat2Z.inj_mod. apply Nat2Z.id.
Qed.

(** ** Repeat mode *)

Lemma cycler_repeat arr key st :
  accumulate arr = Some false →
  cycler_generic arr key st =
    tok ← Py.getitem arr (cursor st key mod Z.of_nat (length arr));
    v ← Py.float tok;
    Some (v, set_ptr key (cursor st key + 1) (init_key key st)).
Proof.
  intros Hacc. unfold cycler_generic, current.
  rewrite Hacc, ptr_init_key. simpl.
  by destruct (Py.getitem arr _) as [tok|].
Qed.

Lemma cycler_repeat_cursor arr key st v st' :
  accumulate arr = Some false →
  cycler_generic arr key st = Some (v, st') →
  cursor st' key = cursor st key + 1.
Proof.
  intros Hacc. rewrite cycler_repeat by done. intros H.
  destruct (Py.getitem arr _) as [tok|]; simpl in H; [|done].
  destruct (Py.float tok); simpl in H; [|done].
  injection H as _ <-. apply cursor_set_ptr.
Qed.

Lemma cycler_repeat_value arr key st (c : nat) :
  accumulate arr = Some false →
  cursor st key = Z.of_nat c →
  fst <$> cycler_generic arr key st = spec_value arr c.
Proof.
  intros Hacc Hc. rewrite cycler_repeat by done. rewrite Hc.
  rewrite getitem_mod by eauto using accumulate_length.
  unfold spec_value.
  destruct (arr !! _) as [tok|]; simpl; [|done].
  by destruct (Py.float tok).
Qed.

Lemma pulls_repeat arr key n : ∀ st (c : nat) vs stn,
  accumulate arr = Some false →
  cursor st key = Z.of_nat c →
  pulls arr key n st = Some (vs, stn) →
  cursor stn key = Z.of_nat (c + n) ∧
  length vs = n ∧
  ∀ i, (i < n)%nat → vs !! i = spec_value arr (c + i).
Proof.
  induction n as [|n IH]; intros st c vs stn Hacc Hc H; simpl in H.
  - injection H as <- <-. rewrite Nat.add_0_r. split_and!; [done..|]. lia.
  - destruct (cycler_generic arr key st) as [[v st1]|] eqn:E1; simpl in H; [|done].
    destruct (pulls arr key n st1) as [[vs' st2]|] eqn:E2; simpl in H; [|done].
    injection H as <- <-.
    pose proof (cycler_repeat_cursor _ _ _ _ _ Hacc E1) as Hc1.
    pose proof (cycler_repeat_value arr key st c Hacc Hc) as Hv.
    rewrite E1 in Hv. simpl in Hv.
    destruct (IH st1 (S c) vs' st2 Hacc) as (Hcn & Hlen & Hvs); [lia|done|].
    split_and!.
    + rewrite Hcn. f_equal. lia.
    + simpl. by rewrite Hlen.
    + intros [|i] Hi; simpl.
      * by rewrite Nat.add_0_r.
      * rewrite Hvs by lia. f_equal. lia.
Qed.

Lemma pulls_repeat_total arr key n : ∀ st,
  accumulate arr = Some false →
  Forall (λ tok, is_Some (Py.float tok)) arr →
  is_Some (pulls arr key n st).
Proof.
  induction n as [|n IH]; intros st Hacc Hall; simpl; [done|].
  rewrite cycler_repeat by done.
  assert (0 <= cursor st key mod Z.of_nat (length arr) < Z.of_nat (length arr)) as Hb.
  { apply Z.mod_pos_bound. apply accumulate_length in Hacc. lia. }
  unfold Py.getitem.
  destruct (Z.ltb_spec (cursor st key mod Z.of_nat (length arr)) 0); [lia|].
  destruct (lookup_lt_is_Some_2 arr (Z.to_nat (cursor st key mod Z.of_nat (length arr))))
    as [tok Htok]; [lia|].
  rewrite Htok. simpl.
  rewrite Forall_forall in Hall.
  destruct (Hall tok) as [v Hv]; [by eapply list_elem_of_lookup_2|].
  rewrite Hv. simpl.
  destruct (IH (set_ptr key (cursor st key + 1) (init_key key st)) Hacc) as [[vs st'] ->].
  { by apply Forall_forall. }
  done.
Qed.

(** C6: in repeat mode the [i]-th pull on a fresh key is the float value of
    [spec[i % k]], and every pull moves the cursor by exactly one.  With
    tokens that all parse as floats, any number of pulls succeeds. *)
Theorem repeat_mode_pulls (arr : list string) (key : string) (st : Cyclers)
    (n : nat) :
  accumulate arr = Some false →
  ptr st !! key = None →
  (Forall (λ tok, is_Some (Py.float tok)) arr → is_Some (pulls arr key n st)) ∧
  (∀ vs stn, pulls arr key n st = Some (vs, stn) →
     length vs = n ∧
     cursor stn key = Z.of_nat n ∧
     (∀ i, (i < n)%nat → vs !! i = spec_value arr i) ∧
     fst <$> cycler_generic arr key stn = spec_value arr n) ∧
  (∀ st0 v st1, cycler_generic arr key st0 = Some (v, st1) →
     cursor st1 key = cursor st0 key + 1).
Proof.
  intros Hacc Hfresh. split_and!.
  - intros. by apply pulls_repeat_total.
  - intros vs stn H.
    destruct (pulls_repeat arr key n st 0 vs stn Hacc) as (Hc & Hlen & Hvs); [|done|].
    { unfold cursor. by rewrite Hfresh. }
    split_and!; [done|done|done|].
    by apply cycler_repeat_value.
  - intros. by eapply cycler_repeat_cursor.
Qed.

Lemma repeat_mode_pulls_witness :
  accumulate ["1"; "1.25"; "1.5"] = Some false ∧
  ptr fresh !! "scale" = None ∧
  ((Forall (λ tok, is_Some (Py.float tok)) ["1"; "1.25"; "1.5"] →
    is_Some (pulls ["1"; "1.25"; "1.5"] "scale" 5 fresh)) ∧
   (∀ vs stn, pulls ["1"; "1.25"; "1.5"] "scale" 5 fresh = Some (vs, stn) →
      length vs = 5%nat ∧
      cursor stn "scale" = Z.of_nat 5 ∧
      (∀ i, (i < 5)%nat → vs !! i = spec_value ["1"; "1.25"; "1.5"] i) ∧
      fst <$> cycler_generic ["1"; "1.25"; "1.5"] "scale" stn
        = spec_value ["1"; "1.25"; "1.5"] 5) ∧
   (∀ st0 v st1,
      cycler_generic ["1"; "1.25"; "1.5"] "scale" st0 = Some (v, st1) →
      cursor st1 "scale" = cursor st0 "scale" + 1)).
Proof.
  split; [reflexivity|]. split; [reflexivity|].
  apply (repeat_mode_pulls ["1"; "1.25"; "1.5"] "scale" fresh 5); reflexivity.
Defined.

(** ** Accumulate mode *)

Lemma lstrip_plus_first s : Py.first_char (Py.lstrip_plus s) ≠ Some "+"%char.
Proof.
  induction s as [|c s IH]; simpl; [done|].
  destruct (Ascii.eqb_spec c "+"); [done|]. simpl. congruence.
Qed.

Lemma split_head sep s :
  ∃ w ws, Py.split sep s = w :: ws ∧
          ∀ c, Py.first_char w = Some c → Py.first_char s = Some c.
Proof.
  destruct s as [|c s]; simpl; [by eexists _, _|].
  destruct (Ascii.eqb c sep); [by eexists _, _|].
  destruct (Py.split sep s); by eexists _, _.
Qed.

Lemma parse_range_first a0 c :
  Py.first_char (fst (parse_range a0)) = Some c → c ≠ "+"%char.
Proof.
  unfold parse_range.
  destruct (split_head ":" (Py.lstrip_plus a0)) as (w & ws & -> & Hw).
  intros H. assert (Py.first_char w = Some c) as Hc by (by destruct ws).
  apply Hw in Hc. intros ->. by apply (lstrip_plus_first a0).
Qed.

Lemma float_first_char s v : Py.float s = Some v → is_Some (Py.first_char s).
Proof. destruct s; [done | by eexists]. Qed.



Lemma cycler_accumulate arr key st :
  accumulate arr = Some true →
  cycler_generic arr key st =
    '(tok, st2) ← acc_select arr key st; acc_step key tok st2.
Proof.
  intros Hacc. unfold cycler_generic, acc_select. rewrite Hacc. simpl.
  destruct (current arr key (init_key key st)) as [value|]; simpl; [|done].
  destruct (acc_first arr key value (init_key key st)) as [[v1 st1]|]; simpl; [|done].
  done.
Qed.

Lemma init_key_range key st : range (init_key key st) = range st.
Proof. unfold init_key. by destruct (ptr st !! key). Qed.

Lemma init_key_last key st l :
  last (init_key key st) !! key = Some l →
  ptr st !! key = None ∧ l = 0%Q ∨ last st !! key = Some l.
Proof.
  unfold init_key. destruct (ptr st !! key); simpl; [by right|].
  rewrite lookup_insert_eq. intros [= <-]. by left.
Qed.


(** The first pull on a key selects the first part of the range. *)
Lemma acc_select_first arr key a0 st :
  head arr = Some a0 →
  accumulate arr = Some true →
  ptr st !! key = None →
  range st !! key = None →
  is_Some (Py.first_char (fst (parse_range a0))) →
  acc_select arr key st =
    Some (fst (parse_range a0),
          set_range key (parse_range a0) (init_key key st)).
Proof.
  intros Ha0 Hacc Hp Hr [c Hc]. unfold acc_select, current.
  rewrite ptr_init_key. simpl.
  unfold cursor. rewrite Hp. simpl.
  rewrite Z.mod_0_l by (apply accumulate_length in Hacc; lia).
  destruct arr as [|a arr']; [done|]. injection Ha0 as ->.
  unfold Py.getitem. simpl.
  unfold acc_first. rewrite init_key_range, Hr. simpl.
  unfold acc_hold. rewrite Hc. simpl.
  apply parse_range_first in Hc.
  by destruct (Ascii.eqb_spec c "+").
Qed.

Lemma bounds_some r0 r1 lower upper :
  r1 ≠ EmptyString →
  Py.float (Py.min2 r0 r1) = Some lower →
  Py.float (Py.max2 r0 r1) = Some upper →
  bounds (r0, Some r1) = Some (Some (lower, upper)).
Proof.
  intros Hr1 Hlo Hup. unfold bounds. simpl.
  destruct r1; [done|]. simpl in *. by rewrite Hlo, Hup.
Qed.









Lemma outside_comp lower upper (t t' : Q) :
  (t == t')%Q → outside lower upper t = outside lower upper t'.
Proof.
  intros H. unfold outside.
  assert (∀ a b b' : Q, (b == b')%Q → Qle_bool a b = Qle_bool a b') as Hle.
  { intros a b b' Hb. apply eq_true_iff_eq.
    rewrite !Qle_bool_iff. by rewrite Hb. }
  by rewrite (Hle lower _ _ H), (Hle upper _ _ H).
Qed.

(** C2 (amended): the first pull on a key in accumulate mode stores the range
    parsed from the first token (leading "+" stripped, split on ":", first two
    parts) and returns the float value of its first part, bounded or not; that
    value is also the accumulator afterwards.  The cursor moves by one, from
    0 to 1, unless that value is outside the bounds, and then it stays
    at 0. *)
Theorem accumulate_first_pull (arr : list string) (key a0 : string)
    (start : Q) (b : option (Q * Q)) (st : Cyclers) :
  head arr = Some a0 →
  accumulate arr = Some true →
  ptr st !! key = None →
  range st !! key = None →
  Py.float (fst (parse_range a0)) = Some start →
  bounds (parse_range a0) = Some b →
  ∃ v st',
    cycler_generic arr key st = Some (v, st') ∧
    (v == start)%Q ∧
    last st' !! key = Some v ∧
    range st' !! key = Some (parse_range a0) ∧
    cursor st key = 0 ∧
    cursor st' key =
      match b with
      | Some (lower, upper) => if outside lower upper start then 0 else 1
      | None => 1
      end.
Proof.
  intros Ha0 Hacc Hp Hr Hstart Hb.
  rewrite cycler_accumulate by done.
  rewrite (acc_select_first arr key a0) by eauto using float_first_char.
  simpl. unfold acc_step, acc_advance. simpl.
  rewrite lookup_insert_eq. simpl. rewrite Hb. simpl.
  assert (cursor st key = 0) as Hc0 by (unfold cursor; by rewrite Hp).
  unfold init_key. rewrite Hp. simpl.
  rewrite !lookup_insert_eq. simpl.
  assert (∃ v st',
    Some ((0 + start)%Q,
      set_last key (0 + start)%Q
        (set_ptr key (0 + 1)
           (set_range key (parse_range a0)
              (set_last key 0%Q (set_ptr key 0 st))))) = Some (v, st') ∧
    (v == start)%Q ∧ last st' !! key = Some v ∧
    range st' !! key = Some (parse_range a0) ∧
    cursor st key = 0 ∧ cursor st' key = 1) as Hadv.
  { eexists _, _. split; [done|]. simpl. rewrite !lookup_insert_eq.
    split_and!; [apply Qplus_0_l|done|done|done|].
    unfold cursor. simpl. by rewrite lookup_insert_eq. }
  destruct b as [[lower upper]|]; simpl.
  - rewrite Hstart. simpl.
    rewrite (outside_comp lower upper (0 + start)%Q start) by apply Qplus_0_l.
    destruct (outside lower upper start); simpl; [|exact Hadv].
    eexists _, _. split; [done|]. simpl. rewrite !lookup_insert_eq.
    split_and!; [done..|].
    unfold cursor. simpl. by rewrite lookup_insert_eq.
  - rewrite Hstart. exact Hadv.
Qed.

Lemma accumulate_first_pull_witness :
  head ["+7:-7:-7"; "-2"] = Some "+7:-7:-7" ∧
  accumulate ["+7:-7:-7"; "-2"] = Some true ∧
  ptr fresh !! "offset" = None ∧
  range fresh !! "offset" = None ∧
  Py.float (fst (parse_range "+7:-7:-7")) = Some 7%Q ∧
  bounds (parse_range "+7:-7:-7") = Some (Some ((-7)%Q, 7%Q)) ∧
  ∃ v st',
    cycler_generic ["+7:-7:-7"; "-2"] "offset" fresh = Some (v, st') ∧
    (v == 7)%Q ∧
    last st' !! "offset" = Some v ∧
    range st' !! "offset" = Some (parse_range "+7:-7:-7") ∧
    cursor fresh "offset" = 0 ∧
    outside (-7) 7 7 = true ∧
    cursor st' "offset" = 0.
Proof.
  do 6 (split; [reflexivity|]).
  destruct (accumulate_first_pull ["+7:-7:-7"; "-2"] "offset" "+7:-7:-7" 7%Q
              (Some ((-7)%Q, 7%Q)) fresh)
    as (v & st' & Hpull & Hv & Hlast & Hrange & Hc0 & Hc1); [reflexivity..|].
  exists v, st'. split_and!; [done..|reflexivity|exact Hc1].
Defined.

(** C2 as stated fails on [--phase=+11.5] of the usage text: the spec has no
    second bound, and the first pull returns 11.5, not 0. *)
Lemma accumulate_first_pull_counterexample :
  ∃ v st,
    cycler_generic ["+11.5"] "phase" fresh = Some (v, st) ∧
    parse_range "+11.5" = ("11.5", None) ∧
    bounds (parse_range "+11.5") = Some None ∧
    (v == 23 # 2)%Q ∧
    ¬ (v == 0)%Q.
Proof.
  eexists _, _. split; [vm_compute; reflexivity|].
  split_and!; [reflexivity..|]. intros H. discriminate H.
Qed.

(** ** [normalize] *)

Lemma mod1_zero_iff (n : Q) : (Py.mod1 n == 0)%Q ↔ is_integer n.
Proof.
  unfold Py.mod1, is_integer. split.
  - intros H. exists (Qfloor n).
    rewrite <- (Qplus_0_l (inject_Z (Qfloor n))), <- H. ring.
  - intros [z Hz]. rewrite (Qfloor_comp _ _ Hz), Qfloor_Z, Hz. ring.
Qed.

(** C4 (amended): [normalize(0)] is 0; every other exact integer goes to 1;
    every other value [n] goes to [round(n % 1, 3)]. *)
Theorem normalize_cases (n : Q) :
  ((n == 0)%Q → normalize n = 0%Q) ∧
  (¬ (n == 0)%Q → is_integer n → normalize n = 1%Q) ∧
  (¬ is_integer n → normalize n = Py.round3 (Py.mod1 n)).
Proof.
  unfold normalize. split_and!.
  - intros H. apply Qeq_bool_iff in H. by rewrite H.
  - intros Hn Hi.
    destruct (Qeq_bool n 0) eqn:E; [by apply Qeq_bool_iff in E|].
    apply mod1_zero_iff, Qeq_bool_iff in Hi. by rewrite Hi.
  - intros Hi.
    destruct (Qeq_bool n 0) eqn:E.
    { apply Qeq_bool_iff in E. destruct Hi. by exists 0. }
    destruct (Qeq_bool (Py.mod1 n) 0) eqn:E'; [|done].
    apply Qeq_bool_iff, mod1_zero_iff in E'. done.
Qed.

(** C4 as stated fails at 0, an exact integer that [normalize] sends to 0. *)
Lemma normalize_counterexample :
  is_integer 0 ∧ normalize 0 = 0%Q ∧ ¬ (normalize 0 == 1)%Q.
Proof.
  split_and!; [by exists 0 | reflexivity | intros H; discriminate H].
Qed.

Example normalize_samples :
  Qred <$> (normalize <$> [1; 2; 5 # 4; 3 # 2; -1 # 4; 12346 # 10000]%Q)
  = [1; 1; 1 # 4; 1 # 2; 3 # 4; 47 # 200]%Q.
Proof. reflexivity. Qed.

(** ** The NULL waveform *)

Lemma init_fields a self :
  init a = Some self →
  (∃ base, head (a_wavelength a) ≫= Py.int_of_str = Some base ∧
           wavelength self = base * a_cycles a) ∧
  cycles self = a_cycles a ∧
  nchan self = a_nchan a ∧
  datalength self = totallength self * nchan self.
Proof.
  unfold init, init_wavelength. intros H.
  destruct (head (a_wavelength a)) as [w0|]; simpl in *; [|done].
  destruct (Py.int_of_str w0) as [base|]; simpl in *; [|done].
  destruct (init_dtype (a_dsize a)); simpl in *; [|done].
  destruct (init_wave (a_nchan a) (a_wave a)); simpl in *; [|done].
  injection H as <-. simpl. split_and!; [by exists base|done..].
Qed.

(** C5 (amended): whatever wavelength and phase it is passed, the NULL
    waveform is the all-zero sequence whose length is [self.wavelength], the
    integer value of the first wavelength token times [cycles]. *)
Theorem gen_null_zeros (a : Args) (self : WaveGen) (base wl : Z) (ph : Q) :
  init a = Some self →
  head (a_wavelength a) ≫= Py.int_of_str = Some base →
  0 <= base * a_cycles a →
  gen_null self wl ph = Some (replicate (Z.to_nat (base * a_cycles a)) 0%Q).
Proof.
  intros Hinit Hbase Hpos.
  destruct (init_fields _ _ Hinit) as ((base' & Hb' & Hwl) & _).
  assert (base' = base) as -> by congruence.
  unfold gen_null, np_zeros. rewrite Hwl.
  by destruct (Z.ltb_spec (base * a_cycles a) 0); [lia|].
Qed.

Lemma gen_null_zeros_witness :
  ∃ self,
    init (mkArgs 1 2 ["100"] None 2 "NULL:ALL" ["0"] ["1"] ["0"] ["0"] 10 ["0"])
      = Some self ∧
    head ["100"] ≫= Py.int_of_str = Some 100 ∧
    0 <= 100 * 2 ∧
    gen_null self 7 (1 # 2) = Some (replicate (Z.to_nat (100 * 2)) 0%Q).
Proof.
  eexists. split; [vm_compute; reflexivity|]. split; [reflexivity|].
  split; [lia|].
  apply (gen_null_zeros
    (mkArgs 1 2 ["100"] None 2 "NULL:ALL" ["0"] ["1"] ["0"] ["0"] 10 ["0"])
    _ 100 7 (1 # 2)); [vm_compute; reflexivity | reflexivity | simpl; lia].
Defined.

(** C5 as stated fails with [cycles = 2]: the base length of the wavelength
    spec is 100, and the NULL waveform has 200 samples. *)
Lemma gen_null_counterexample :
  ∃ self ys,
    init (mkArgs 1 2 ["100"] None 2 "NULL:ALL" ["0"] ["1"] ["0"] ["0"] 10 ["0"])
      = Some self ∧
    head ["100"] ≫= Py.int_of_str = Some 100 ∧
    gen_null self 100 0 = Some ys ∧
    length ys = 200%nat ∧
    length ys ≠ 100%nat.
Proof.
  eexists _, _. split; [vm_compute; reflexivity|]. split; [reflexivity|].
  split; [vm_compute; reflexivity|]. split; [reflexivity|]. discriminate.
Qed.

(** ** The interleaved buffer *)

Section Buffer.

Local Open Scope nat_scope.

Lemma track_len_lt n c (data : list Z) i :
  0 < n → i < track_len n c data ↔ c + i * n < length data.
Proof.
  intros Hn. unfold track_len. split.
  - intros Hi.
    assert (S i ≤ (length data + n - 1 - c) / n) as Hle by lia.
    pose proof (Nat.Div0.mul_div_le (length data + n - 1 - c) n) as Hm.
    assert (n * S i ≤ n * ((length data + n - 1 - c) / n)) by (apply Nat.mul_le_mono_l; lia).
    lia.
  - intros Hi.
    assert (S i ≤ (length data + n - 1 - c) / n); [|lia].
    apply Nat.div_le_lower_bound; lia.
Qed.

Lemma track_len_full n c T (data : list Z) :
  c < n → length data = T * n → track_len n c data = T.
Proof.
  intros Hc Hlen.
  assert (∀ i, i < track_len n c data ↔ i < T) as Hiff.
  { intros i. rewrite track_len_lt by lia. rewrite Hlen. nia. }
  destruct (Nat.lt_trichotomy (track_len n c data) T) as [H|[H|H]]; [|done|].
  - apply Hiff in H. lia.
  - apply Hiff in H. lia.
Qed.

Lemma length_track n c (data : list Z) :
  length (track n c data) = track_len n c data.
Proof. unfold track. by rewrite length_fmap, length_seq. Qed.

Lemma track_lookup n c (data : list Z) i :
  0 < n → track n c data !! i = data !! (c + i * n).
Proof.
  intros Hn. unfold track. rewrite list_lookup_fmap.
  destruct (decide (i < track_len n c data)) as [Hi|Hi].
  - rewrite lookup_seq_lt by done. simpl.
    apply track_len_lt in Hi; [|done].
    destruct (lookup_lt_is_Some_2 data (c + i * n) Hi) as [x Hx].
    rewrite Hx. f_equal. by apply nth_lookup_Some.
  - rewrite (proj2 (lookup_ge_None _ _)) by (rewrite length_seq; lia).
    simpl. symmetry. apply lookup_ge_None.
    rewrite track_len_lt in Hi by done. lia.
Qed.

Lemma store_track_length n c new (data : list Z) :
  length (store_track n c new data) = length data.
Proof. apply length_imap. Qed.

(** A write through the view of one channel leaves the positions of the
    other channels alone. *)
Lemma store_track_other n c new (data : list Z) j :
  c < n → j mod n ≠ c → store_track n c new data !! j = data !! j.
Proof.
  intros Hc Hj. unfold store_track. rewrite list_lookup_imap.
  destruct (data !! j) as [x|]; simpl; [|done].
  destruct (Nat.leb_spec c j) as [Hle|]; simpl; [|done].
  destruct (Nat.eqb_spec ((j - c) mod n) 0) as [Hm|]; [|done].
  exfalso. apply Hj.
  pose proof (Nat.div_mod_eq (j - c) n) as Hd.
  replace j with (c + (j - c) / n * n) by lia.
  rewrite Nat.Div0.mod_add. by apply Nat.mod_small.
Qed.

Lemma store_track_own n c new (data : list Z) i x :
  0 < n → c + i * n < length data → new !! i = Some x →
  store_track n c new data !! (c + i * n) = Some x.
Proof.
  intros Hn Hlt Hx. unfold store_track. rewrite list_lookup_imap.
  destruct (lookup_lt_is_Some_2 data (c + i * n) Hlt) as [y ->]. simpl.
  destruct (Nat.leb_spec c (c + i * n)); [|lia]. simpl.
  replace (c + i * n - c) with (i * n) by lia.
  rewrite Nat.Div0.mod_mul, Nat.div_mul by lia. simpl.
  f_equal. by apply nth_lookup_Some.
Qed.

Lemma track_store_track n c new (data : list Z) :
  0 < n → length new = track_len n c data →
  track n c (store_track n c new data) = new.
Proof.
  intros Hn Hlen. apply list_eq. intros i.
  rewrite track_lookup by done.
  destruct (new !! i) as [x|] eqn:Ex.
  - apply store_track_own; [done| |done].
    apply track_len_lt; [done|]. rewrite <- Hlen. by eapply lookup_lt_Some.
  - apply lookup_ge_None. rewrite store_track_length.
    apply lookup_ge_None in Ex. rewrite Hlen in Ex.
    assert (¬ i < track_len n c data) as Hi by lia.
    rewrite track_len_lt in Hi by done. lia.
Qed.

(** Slices. *)

Lemma slice_index_bounds n i : (0 ≤ n → 0 ≤ slice_index n i ≤ n)%Z.
Proof. unfold slice_index. destruct (Z.ltb_spec i 0); lia. Qed.

Lemma slice_window_le {A} (l : list A) a b :
  slice_start l a + slice_len l a b ≤ length l.
Proof.
  unfold slice_start, slice_len.
  pose proof (slice_index_bounds (Z.of_nat (length l)) a).
  pose proof (slice_index_bounds (Z.of_nat (length l)) b). lia.
Qed.

Lemma setslice_length l a b src l' :
  setslice l a b src = Some l' → length l' = length l.
Proof.
  unfold setslice. pose proof (slice_window_le l a b) as Hw.
  destruct (Nat.eqb_spec (length src) (slice_len l a b)) as [Hk|Hk].
  - intros [= <-]. rewrite !length_app, length_take, length_drop. lia.
  - destruct src as [|x [|]]; [done| |done].
    intros [= <-].
    rewrite !length_app, length_take, length_drop, length_replicate. lia.
Qed.

(** Outside the window an assignment changes nothing. *)
Lemma setslice_outside l a b src l' i :
  setslice l a b src = Some l' →
  (i < slice_start l a ∨ slice_start l a + slice_len l a b ≤ i) →
  l' !! i = l !! i.
Proof.
  unfold setslice. pose proof (slice_window_le l a b) as Hw.
  set (s := slice_start l a) in *. set (k := slice_len l a b) in *.
  assert (∀ mid : list Z, length mid = k → i < s ∨ s + k ≤ i →
            (take s l ++ mid ++ drop (s + k) l) !! i = l !! i) as Hmid.
  { intros mid Hm [Hi|Hi].
    - rewrite lookup_app_l by (rewrite length_take; lia).
      rewrite lookup_take. by destruct (decide (i < s)).
    - rewrite lookup_app_r by (rewrite length_take; lia).
      rewrite length_take.
      rewrite lookup_app_r by lia.
      rewrite lookup_drop. f_equal. lia. }
  destruct (Nat.eqb_spec (length src) k) as [Hk|Hk].
  - intros [= <-] Hi. by apply Hmid.
  - destruct src as [|x [|]]; [done| |done].
    intros [= <-] Hi. apply Hmid; [apply length_replicate|done].
Qed.

(** An empty source on an empty window is accepted and changes nothing. *)
Lemma setslice_empty l a :
  setslice l a a [] = Some l.
Proof.
  unfold setslice, slice_len. rewrite Z.sub_diag. simpl.
  by rewrite Nat.add_0_r, take_drop.
Qed.

Lemma getslice_empty {A} (l : list A) a : getslice l a a = [].
Proof. unfold getslice, slice_len. by rewrite Z.sub_diag. Qed.

End Buffer.

Lemma wrap_representable d x : representable d x → wrap d x = x.
Proof.
  unfold representable, wrap. destruct d; simpl; intros H.
  - rewrite Z.mod_small; lia.
  - rewrite Z.mod_small; lia.
Qed.

Lemma wrap_range d x : representable d (wrap d x).
Proof.
  unfold representable, wrap. destruct d; simpl.
  all: match goal with
       | |- context [?a mod ?b] => pose proof (Z.mod_pos_bound a b)
       end; lia.
Qed.

(** ** The engine: one channel *)

Section Engine.

Variable np_sin : Q → Q.
Variable np_pi : Q.

Lemma add_offset_Some self off trk trk' :
  add_offset self off trk = Some trk' →
  representable (dtype self) off ∧
  trk' = (λ x, wrap (dtype self) (x + off)) <$> trk.
Proof.
  unfold add_offset, representableb, representable.
  destruct (Z.leb_spec (- 2 ^ (bits (dtype self) - 1)) off); simpl; [|done].
  destruct (Z.ltb_spec off (2 ^ (bits (dtype self) - 1))); [|done].
  by intros [= <-].
Qed.


Lemma add_offset_length self off trk trk' :
  add_offset self off trk = Some trk' → length trk' = length trk.
Proof. intros [_ ->]%add_offset_Some. by rewrite length_fmap. Qed.

Lemma process_channel_mapped self hush chan f data plans out st r' :
  get_wave self (chan + 1) = Some f →
  process_channel np_sin np_pi self hush chan (data, plans, out, st) = Some r' →
  ∃ p st' trk trk',
    resolve np_pi self chan f st = Some (p, st') ∧
    place np_sin np_pi self p
      (track (Z.to_nat (nchan self)) (Z.to_nat chan) data) = Some trk ∧
    add_offset self (p_offset p) trk = Some trk' ∧
    r' = (store_track (Z.to_nat (nchan self)) (Z.to_nat chan) trk' data,
          plans ++ [p], print hush (Channel p) out, st').
Proof.
  intros Hw. unfold process_channel. rewrite Hw.
  destruct (resolve np_pi self chan f st) as [[p st']|]; simpl; [|done].
  destruct (place np_sin np_pi self p _) as [trk|] eqn:Ep; simpl; [|done].
  destruct (add_offset self (p_offset p) trk) as [trk'|] eqn:Eo; simpl; [|done].
  intros [= <-]. by exists p, st', trk, trk'.
Qed.

Lemma place_length self p trk trk' :
  place np_sin np_pi self p trk = Some trk' → length trk' = length trk.
Proof.
  unfold place.
  destruct (gen np_sin np_pi (p_wave p) self _ _); simpl; [|done].
  apply setslice_length.
Qed.

Lemma place_outside self p trk trk' i :
  place np_sin np_pi self p trk = Some trk' →
  (i < slice_start trk (d0 self p) ∨
   slice_start trk (d0 self p) + slice_len trk (d0 self p) (d1 self p) ≤ i)%nat →
  trk' !! i = trk !! i.
Proof.
  unfold place.
  destruct (gen np_sin np_pi (p_wave p) self _ _); simpl; [|done].
  apply setslice_outside.
Qed.

(** With both ends non-negative the window of the slice is [d0, d1). *)
Lemma window_plain self p (trk : list Z) (i : nat) :
  Z.of_nat (length trk) = totallength self →
  0 <= d0 self p → 0 <= d1 self p →
  (Z.of_nat i < d0 self p ∨ d1 self p <= Z.of_nat i) →
  (i < slice_start trk (d0 self p) ∨
   slice_start trk (d0 self p) + slice_len trk (d0 self p) (d1 self p) ≤ i)%nat.
Proof.
  intros Hlen H0 H1 Hi. unfold slice_start, slice_len, slice_index.
  rewrite Hlen.
  assert (d0 self p <= totallength self) by (unfold d0; lia).
  assert (d1 self p <= totallength self) by (unfold d1; lia).
  destruct (Z.ltb_spec (d0 self p) 0); [lia|].
  destruct (Z.ltb_spec (d1 self p) 0); [lia|]. lia.
Qed.

(** The part of C3 that holds: with crop equal to the wavelength, or with a
    start position at or beyond the total length and a crop that does not
    exceed the wavelength, the assignment is accepted and writes nothing. *)
Lemma place_degenerate self p trk :
  is_Some (gen np_sin np_pi (p_wave p) self (p_wavelength p) (p_phase p)) →
  p_crop p = p_wavelength p ∨
    (totallength self <= p_spos p ∧ p_crop p <= p_wavelength p) →
  d1 self p = d0 self p ∧ place np_sin np_pi self p trk = Some trk.
Proof.
  intros [ys Hys] Hdeg.
  assert (d1 self p = d0 self p) as Hd by (unfold d1, d0; lia).
  split; [done|]. unfold place. rewrite Hys. simpl.
  rewrite Hd, Z.sub_diag, getslice_empty. apply setslice_empty.
Qed.

(** X19: processing a mapped channel adds the resolved offset, in the
    arithmetic of the output type, to every sample of that channel's track.
    The step returns only for an offset that the output type holds.  Outside
    the slice that was written the samples are the old ones plus the offset,
    so with a window [d0, d1) that has no negative end a sample outside it
    that was zero ends up equal to the offset itself; no sample of another
    channel changes. *)
Theorem process_channel_offset (self : WaveGen) (hush : bool) (chan : Z)
    (f : WaveFn) (data : list Z) (plans : list Plan) (out : list Line)
    (st : Cyclers) (data' : list Z) (plans' : list Plan) (out' : list Line)
    (st' : Cyclers) :
  0 <= chan < nchan self →
  0 <= totallength self →
  length data = (Z.to_nat (totallength self) * Z.to_nat (nchan self))%nat →
  get_wave self (chan + 1) = Some f →
  process_channel np_sin np_pi self hush chan (data, plans, out, st)
    = Some (data', plans', out', st') →
  let n := Z.to_nat (nchan self) in
  let c := Z.to_nat chan in
  ∃ p trk,
    resolve np_pi self chan f st = Some (p, st') ∧
    plans' = plans ++ [p] ∧
    place np_sin np_pi self p (track n c data) = Some trk ∧
    length trk = Z.to_nat (totallength self) ∧
    representable (dtype self) (p_offset p) ∧
    track n c data' = (λ x, wrap (dtype self) (x + p_offset p)) <$> trk ∧
    (∀ (i : nat) x,
       (i < slice_start trk (d0 self p) ∨
        slice_start trk (d0 self p) + slice_len trk (d0 self p) (d1 self p) ≤ i)%nat →
       track n c data !! i = Some x →
       track n c data' !! i = Some (wrap (dtype self) (x + p_offset p))) ∧
    (∀ i : nat,
       0 <= d0 self p → 0 <= d1 self p →
       (Z.of_nat i < d0 self p ∨ d1 self p <= Z.of_nat i) →
       track n c data !! i = Some 0 →
       track n c data' !! i = Some (p_offset p)) ∧
    length data' = length data ∧
    (∀ j : nat, (j mod n)%nat ≠ c → data' !! j = data !! j).
Proof.
  intros Hchan HT Hlen Hw Hstep n c.
  destruct (process_channel_mapped _ _ _ _ _ _ _ _ _ Hw Hstep)
    as (p & st'' & trk & trk' & Hres & Hplace & Hoff & [= -> -> -> ->]).
  apply add_offset_Some in Hoff as [Hrep ->].
  fold n c in Hplace |- *.
  assert (0 < n)%nat as Hn by (unfold n; lia).
  assert (c < n)%nat as Hc by (unfold n, c; lia).
  assert (track_len n c data = Z.to_nat (totallength self)) as Htl.
  { by apply track_len_full. }
  assert (length trk = Z.to_nat (totallength self)) as Htrk.
  { by rewrite (place_length _ _ _ _ Hplace), length_track. }
  set (new := (λ x, wrap (dtype self) (x + p_offset p)) <$> trk).
  assert (track n c (store_track n c new data) = new) as Htrack.
  { apply track_store_track; [done|].
    unfold new. by rewrite length_fmap, Htrk, Htl. }
  assert (∀ (i : nat) x,
       (i < slice_start trk (d0 self p) ∨
        slice_start trk (d0 self p) + slice_len trk (d0 self p) (d1 self p) ≤ i)%nat →
       track n c data !! i = Some x →
       track n c (store_track n c new data) !! i
         = Some (wrap (dtype self) (x + p_offset p))) as Hout.
  { intros i x Hi Hx. rewrite Htrack. unfold new.
    rewrite list_lookup_fmap.
    assert (length trk = length (track n c data)) as Hll.
    { by rewrite Htrk, length_track. }
    unfold slice_start, slice_len in Hi. rewrite Hll in Hi.
    by rewrite (place_outside _ _ _ _ i Hplace), Hx. }
  exists p, trk. split_and!; [done..| | |].
  - intros i H0 H1 Hi Hx.
    rewrite (Hout i 0); [|by apply window_plain; [rewrite Htrk; lia|..]|done].
    by rewrite Z.add_0_l, wrap_representable.
  - apply store_track_length.
  - intros j Hj. by apply store_track_other.
Qed.

(** C10: a channel without a waveform function is skipped before any
    cycler is pulled: the run, and with it every cursor, accumulator and
    range, is unchanged, the loop goes on as if the channel were absent, and
    the next mapped channel resolves the values the skipped one would have. *)
Theorem unmapped_channel_pulls_nothing (self : WaveGen) (hush : bool)
    (chan : Z) (data : list Z) (log : list Plan) (out : list Line)
    (st : Cyclers) :
  get_wave self (chan + 1) = None →
  process_channel np_sin np_pi self hush chan (data, log, out, st)
    = Some (data, log, out, st) ∧
  (∀ rest,
     process_channels np_sin np_pi self hush (chan :: rest) (data, log, out, st)
     = process_channels np_sin np_pi self hush rest (data, log, out, st)) ∧
  (∀ chan' f f',
     resolve np_pi self chan' f' st
     = (λ '(p, s), (mkPlan (chan' + 1) f' (p_offset p) (p_phase p) (p_spos p)
                      (p_scale p) (p_wavelength p) (p_crop p), s))
       <$> resolve np_pi self chan f st).
Proof.
  intros Hw.
  assert (process_channel np_sin np_pi self hush chan (data, log, out, st)
          = Some (data, log, out, st)) as Hskip.
  { unfold process_channel. by rewrite Hw. }
  split_and!; [done| |].
  - intros rest. cbn [process_channels]. by rewrite Hskip.
  - intros chan' f f'. unfold resolve.
    destruct (get_scale self st) as [[v1 s1]|]; simpl; [|done].
    destruct (get_wavelength self s1) as [[v2 s2]|]; simpl; [|done].
    destruct (get_phase np_pi self s2) as [[v3 s3]|]; simpl; [|done].
    destruct (get_crop self s3) as [[v4 s4]|]; simpl; [|done].
    destruct (get_spos self s4) as [[v5 s5]|]; simpl; [|done].
    by destruct (get_offset self s5) as [[v6 s6]|].
Qed.

(** ** The engine: a whole run *)

Lemma process_channels_frame self hush chans :
  ∀ data log out st data' log' out' st',
  Forall (λ ch, 0 <= ch < nchan self) chans →
  process_channels np_sin np_pi self hush chans (data, log, out, st)
    = Some (data', log', out', st') →
  length data' = length data ∧
  ∀ j : nat,
    (∀ ch, ch ∈ chans → is_Some (get_wave self (ch + 1)) →
           Z.to_nat ch ≠ (j mod Z.to_nat (nchan self))%nat) →
    data' !! j = data !! j.
Proof.
  induction chans as [|ch chans IH];
    intros data log out st data' log' out' st' Hall H.
  - simpl in H. by injection H as <- <- <- <-.
  - cbn [process_channels] in H. apply Forall_cons in Hall as [Hch Hall].
    destruct (process_channel np_sin np_pi self hush ch (data, log, out, st))
      as [[[[data1 log1] out1] st1]|] eqn:E1; simpl in H; [|done].
    destruct (IH _ _ _ _ _ _ _ _ Hall H) as [Hlen Hframe].
    destruct (get_wave self (ch + 1)) as [f|] eqn:Ew.
    + destruct (process_channel_mapped _ _ _ _ _ _ _ _ _ Ew E1)
        as (p & st'' & trk & trk' & _ & _ & _ & [= -> -> -> ->]).
      rewrite store_track_length in Hlen. split; [done|].
      intros j Hj. rewrite Hframe.
      * apply store_track_other; [lia|].
        intros Heq. apply (Hj ch); [by left|by rewrite Ew|done].
      * intros ch' Hin. apply Hj. by right.
    + unfold process_channel in E1. rewrite Ew in E1.
      injection E1 as <- <- <- <-. split; [done|].
      intros j Hj. apply Hframe. intros ch' Hin. apply Hj. by right.
Qed.

Lemma seqZ_range n : Forall (λ ch, 0 <= ch < n) (seqZ 0 n).
Proof.
  apply Forall_forall. intros ch Hin.
  apply list_elem_of_lookup in Hin as [i Hi].
  apply lookup_seqZ in Hi. lia.
Qed.

(** C7: after [generate], every sample of the track of a channel without a
    waveform function (positions c, c + nchan, c + 2 nchan, ...) is zero,
    whatever the other channels are given. *)
Theorem unmapped_channel_silent (self : WaveGen) (hush : bool)
    (st : Cyclers) (data : list Z) (log : list Plan) (out : list Line)
    (st' : Cyclers) (c : Z) :
  datalength self = totallength self * nchan self →
  generate np_sin np_pi self hush st = Some (data, log, out, st') →
  0 <= c < nchan self →
  get_wave self (c + 1) = None →
  Z.of_nat (length data) = totallength self * nchan self ∧
  ∀ i : nat,
    Z.of_nat i < totallength self →
    data !! (Z.to_nat c + i * Z.to_nat (nchan self))%nat = Some 0.
Proof.
  intros Hdl Hgen Hc Hw. unfold generate, np_zeros in Hgen.
  destruct (Z.ltb_spec (datalength self) 0) as [|Hpos]; simpl in Hgen; [done|].
  destruct (Z.leb_spec (nchan self) 0) as [|Hn]; [done|].
  destruct (datalength self mod nchan self =? 0); simpl in Hgen; [|done].
  destruct (process_channels_frame _ _ _ _ _ _ _ _ _ _ _
              (seqZ_range (nchan self)) Hgen)
    as [Hlen Hframe].
  rewrite length_replicate in Hlen. split; [lia|].
  intros i Hi. rewrite Hframe.
  - apply lookup_replicate_2. nia.
  - intros ch Hin [f Hf] Heq.
    rewrite Nat.Div0.mod_add, Nat.mod_small in Heq by lia.
    apply list_elem_of_lookup in Hin as [k Hk]. apply lookup_seqZ in Hk.
    assert (ch = c) as -> by lia. congruence.
Qed.

End Engine.

(** ** Runs on concrete configurations

    The numeric library is replaced by [sin_q] and [pi_q]. *)

Lemma unmapped_channel_silent_witness :
  ∃ self data log out st',
    init (mkArgs 2 1 ["4"] None 2 "SINE:1" ["0"] ["1"] ["0"] ["0"] 10 ["0"])
      = Some self ∧
    datalength self = totallength self * nchan self ∧
    generate sin_q pi_q self false fresh = Some (data, log, out, st') ∧
    0 <= 1 < nchan self ∧
    get_wave self (1 + 1) = None ∧
    Z.of_nat (length data) = totallength self * nchan self ∧
    ∀ i : nat,
      Z.of_nat i < totallength self →
      data !! (Z.to_nat 1 + i * Z.to_nat (nchan self))%nat = Some 0.
Proof.
  eexists _, _, _, _, _.
  split; [vm_compute; reflexivity|].
  split; [vm_compute; reflexivity|].
  split; [vm_compute; reflexivity|].
  split; [vm_compute; split; [discriminate | reflexivity]|].
  split; [vm_compute; reflexivity|].
  eapply (unmapped_channel_silent sin_q pi_q _ false fresh _ _ _ _ 1);
    [vm_compute; reflexivity | vm_compute; reflexivity
    | vm_compute; split; [discriminate | reflexivity] | vm_compute; reflexivity].
Defined.

Lemma process_channel_offset_witness :
  ∃ self data' plans' out' st',
    init (mkArgs 2 1 ["4"] None 2 "RAMP:1" ["0"] ["1"] ["1"] ["2"] 10 ["1"])
      = Some self ∧
    0 <= 0 < nchan self ∧
    0 <= totallength self ∧
    length (replicate 8 0)
      = (Z.to_nat (totallength self) * Z.to_nat (nchan self))%nat ∧
    get_wave self (0 + 1) = Some RAMP ∧
    process_channel sin_q pi_q self false 0 (replicate 8 0, [], [], fresh)
      = Some (data', plans', out', st') ∧
    data' = [3276; 0; 3276; 0; 3276; 0; 14198; 0] ∧
    let n := Z.to_nat (nchan self) in
    let c := Z.to_nat 0 in
    ∃ p trk,
      resolve pi_q self 0 RAMP fresh = Some (p, st') ∧
      plans' = [] ++ [p] ∧
      place sin_q pi_q self p (track n c (replicate 8 0)) = Some trk ∧
      length trk = Z.to_nat (totallength self) ∧
      representable (dtype self) (p_offset p) ∧
      track n c data' = (λ x, wrap (dtype self) (x + p_offset p)) <$> trk ∧
      (∀ (i : nat) x,
         (i < slice_start trk (d0 self p) ∨
          slice_start trk (d0 self p) + slice_len trk (d0 self p) (d1 self p) ≤ i)%nat →
         track n c (replicate 8 0) !! i = Some x →
         track n c data' !! i = Some (wrap (dtype self) (x + p_offset p))) ∧
      (∀ i : nat,
         0 <= d0 self p → 0 <= d1 self p →
         (Z.of_nat i < d0 self p ∨ d1 self p <= Z.of_nat i) →
         track n c (replicate 8 0) !! i = Some 0 →
         track n c data' !! i = Some (p_offset p)) ∧
      length data' = length (replicate 8 0) ∧
      (∀ j : nat, (j mod n)%nat ≠ c → data' !! j = replicate 8 0 !! j).
Proof.
  eexists _, _, _, _, _.
  split; [vm_compute; reflexivity|].
  split; [vm_compute; split; [discriminate | reflexivity]|].
  split; [vm_compute; discriminate|].
  split; [vm_compute; reflexivity|].
  split; [vm_compute; reflexivity|].
  split; [vm_compute; reflexivity|].
  split; [reflexivity|].
  eapply (process_channel_offset sin_q pi_q _ false 0 RAMP (replicate 8 0)
            [] [] fresh);
    [ vm_compute; split; [discriminate | reflexivity]
    | vm_compute; discriminate
    | vm_compute; reflexivity
    | vm_compute; reflexivity
    | vm_compute; reflexivity ].
Defined.

Lemma unmapped_channel_pulls_nothing_witness :
  ∃ self,
    init (mkArgs 2 1 ["4"] None 2 "SINE:2" ["0"; "90"] ["1"] ["0"] ["0"] 10 ["0"])
      = Some self ∧
    get_wave self (0 + 1) = None ∧
    process_channel sin_q pi_q self false 0 (replicate 8 0, [], [], fresh)
      = Some (replicate 8 0, [], [], fresh) ∧
    (∀ rest,
       process_channels sin_q pi_q self false (0 :: rest)
         (replicate 8 0, [], [], fresh)
       = process_channels sin_q pi_q self false rest
           (replicate 8 0, [], [], fresh)) ∧
    (∀ chan' f f',
       resolve pi_q self chan' f' fresh
       = (λ '(p, s), (mkPlan (chan' + 1) f' (p_offset p) (p_phase p) (p_spos p)
                        (p_scale p) (p_wavelength p) (p_crop p), s))
         <$> resolve pi_q self 0 f fresh).
Proof.
  eexists. split; [vm_compute; reflexivity|]. split; [vm_compute; reflexivity|].
  apply (unmapped_channel_pulls_nothing sin_q pi_q _ false 0 (replicate 8 0)
           [] [] fresh).
  vm_compute; reflexivity.
Defined.

(** C3 on a crop larger than the wavelength: with wavelength 4, crop 5 and the
    default total length 4, [d1] is -1; Python reads the slice [0:-1]
    from the end of the track, so three synthesized samples are written
    instead of none.  With total length 8 the destination has seven places
    for three samples and the assignment raises.  The phase is 0, so the value
    taken for pi plays no part. *)
Theorem crop_beyond_wavelength_writes :
  ∃ self data p out st',
    init (mkArgs 1 1 ["4"] None 2 "RAMP:ALL" ["0"] ["1"] ["5"] ["0"] 10 ["0"])
      = Some self ∧
    generate sin_q pi_q self false fresh = Some (data, [p], out, st') ∧
    p_crop p = 5 ∧ p_wavelength p = 4 ∧ p_spos p = 0 ∧ p_offset p = 0 ∧
    d0 self p = 0 ∧ d1 self p = -1 ∧
    data = [0; 10922; 21844; 0] ∧
    ∃ self8,
      init (mkArgs 1 1 ["4"] (Some 8) 2 "RAMP:ALL" ["0"] ["1"] ["5"] ["0"] 10 ["0"])
        = Some self8 ∧
      generate sin_q pi_q self8 false fresh = None.
Proof.
  eexists _, _, _, _, _.
  split; [vm_compute; reflexivity|].
  split; [vm_compute; reflexivity|].
  split_and!; [reflexivity..|].
  eexists. split; [vm_compute; reflexivity|]. vm_compute. reflexivity.
Qed.

(** C8 on the same crop with an offset of 1 V: wavelength 4, crop 5, total
    length 4, so [d0] is 0 and [d1] is -1.  No position of the track lies in
    [d0, d1), and the claim has every one of them end up equal to the offset,
    3276.  The slice [0:-1] is read from the end of the track, three
    synthesized samples are written, and the positions 1 and 2 hold 14198 and
    25120, the samples 10922 and 21844 plus the offset. *)
Theorem crop_beyond_wavelength_offset :
  ∃ self data p out st',
    init (mkArgs 1 1 ["4"] None 2 "RAMP:ALL" ["0"] ["1"] ["5"] ["0"] 10 ["1"])
      = Some self ∧
    get_wave self (0 + 1) = Some RAMP ∧
    generate sin_q pi_q self false fresh = Some (data, [p], out, st') ∧
    p_crop p = 5 ∧ p_wavelength p = 4 ∧ p_spos p = 0 ∧ p_offset p = 3276 ∧
    d0 self p = 0 ∧ d1 self p = -1 ∧
    data = [3276; 14198; 25120; 3276] ∧
    (d1 self p <= 1 ∧ data !! 1%nat = Some 14198 ∧ 14198 ≠ p_offset p) ∧
    (d1 self p <= 2 ∧ data !! 2%nat = Some 25120 ∧ 25120 ≠ p_offset p).
Proof.
  eexists _, _, _, _, _.
  split; [vm_compute; reflexivity|].
  split; [vm_compute; reflexivity|].
  split; [vm_compute; reflexivity|].
  do 7 (split; [reflexivity|]).
  split; (split; [vm_compute; discriminate|]);
    (split; [reflexivity | vm_compute; discriminate]).
Qed.

(** ** Calling [generate] again *)

Lemma cursor_init_key key key' st : cursor (init_key key st) key' = cursor st key'.
Proof.
  unfold init_key, cursor. destruct (ptr st !! key) eqn:E; simpl; [done|].
  destruct (decide (key = key')) as [<-|Hne].
  - by rewrite lookup_insert_eq, E.
  - by rewrite lookup_insert_ne.
Qed.

Lemma cycler_repeat_at arr key st (c : nat) :
  accumulate arr = Some false →
  cursor st key = Z.of_nat c →
  cycler_generic arr key st =
    v ← spec_value arr c;
    Some (v, set_ptr key (Z.of_nat (S c)) (init_key key st)).
Proof.
  intros Hacc Hc. rewrite cycler_repeat by done. rewrite Hc.
  rewrite getitem_mod by eauto using accumulate_length.
  unfold spec_value.
  destruct (arr !! _) as [tok|]; simpl; [|done].
  replace (Z.of_nat c + 1) with (Z.of_nat (S c)) by lia. done.
Qed.

Lemma cursor_after key key' p st :
  key ≠ key' → cursor (set_ptr key p (init_key key st)) key' = cursor st key'.
Proof. intros. by rewrite cursor_set_ptr_ne, cursor_init_key. Qed.

Lemma spec_value_period arr (m j : nat) :
  (m mod length arr = 0)%nat → spec_value arr (m + j) = spec_value arr j.
Proof.
  intros Hm. unfold spec_value.
  destruct (decide (length arr = 0%nat)) as [H0|H0].
  { destruct arr; [done|simpl in H0; lia]. }
  rewrite Nat.Div0.add_mod, Hm, Nat.add_0_l, Nat.Div0.mod_mod. done.
Qed.

Section Twice.

Variable np_sin : Q → Q.
Variable np_pi : Q.

#[local] Arguments cycler_generic : simpl never.
#[local] Arguments set_ptr : simpl never.
#[local] Arguments init_key : simpl never.
#[local] Arguments cursor : simpl never.

(** One channel in repeat mode: the six pulls read position [c] and leave
    every cursor at [c + 1]. *)
Lemma resolve_repeat self chan f st (c : nat) :
  all_repeat self →
  aligned st c →
  fst <$> resolve np_pi self chan f st = plan_at np_pi self chan f c ∧
  ∀ p st', resolve np_pi self chan f st = Some (p, st') → aligned st' (S c).
Proof.
  unfold all_repeat, aligned, specs, keys. intros Hrep Hal.
  repeat (apply Forall_cons in Hrep as [? Hrep]).
  repeat (apply Forall_cons in Hal as [? Hal]).
  unfold resolve, plan_at, get_scale, get_wavelength, get_phase, get_crop,
    get_spos, get_offset.
  rewrite (cycler_repeat_at (scale self) "scale" st c) by done.
  destruct (spec_value (scale self) c) as [sc|]; simpl; [|done].
  rewrite (cycler_repeat_at (wavelengths self) "wave" _ c)
    by (done || by rewrite cursor_after).
  destruct (spec_value (wavelengths self) c) as [wl|]; simpl; [|done].
  rewrite (cycler_repeat_at (phase self) "phase" _ c)
    by (done || by rewrite !cursor_after).
  destruct (spec_value (phase self) c) as [ph|]; simpl; [|done].
  rewrite (cycler_repeat_at (crop self) "crop" _ c)
    by (done || by rewrite !cursor_after).
  destruct (spec_value (crop self) c) as [cr|]; simpl; [|done].
  rewrite (cycler_repeat_at (spos self) "spos" _ c)
    by (done || by rewrite !cursor_after).
  destruct (spec_value (spos self) c) as [sp|]; simpl; [|done].
  rewrite (cycler_repeat_at (offset self) "offset" _ c)
    by (done || by rewrite !cursor_after).
  destruct (spec_value (offset self) c) as [off|]; simpl; [|done].
  destruct (voltage self =? 0); simpl; [done|].
  split; [done|]. intros p st' [= <- <-].
  repeat constructor;
    repeat first [ apply cursor_set_ptr
                 | rewrite cursor_after by done ].
Qed.

Lemma process_channels_repeat self hush chans :
  ∀ data log out st (c : nat) data' log' out' st',
  all_repeat self →
  aligned st c →
  process_channels np_sin np_pi self hush chans (data, log, out, st)
    = Some (data', log', out', st') →
  ∃ ps,
    plans_from np_pi self c (mapped_of self chans) = Some ps ∧
    length ps = length (mapped_of self chans) ∧
    log' = log ++ ps ∧
    aligned st' (c + length ps).
Proof.
  induction chans as [|ch chans IH];
    intros data log out st c data' log' out' st' Hrep Hal H.
  - simpl in H. injection H as <- <- <- <-. exists []. simpl.
    rewrite app_nil_r, Nat.add_0_r. done.
  - cbn [process_channels] in H.
    destruct (process_channel np_sin np_pi self hush ch (data, log, out, st))
      as [[[[data1 log1] out1] st1]|] eqn:E1; simpl in H; [|done].
    unfold mapped_of. cbn [omap list_omap]. fold (mapped_of self chans).
    destruct (get_wave self (ch + 1)) as [f|] eqn:Ew; simpl.
    + destruct (process_channel_mapped _ _ _ _ _ _ _ _ _ _ _ Ew E1)
        as (p & st'' & trk & trk' & Hres & _ & _ & [= -> -> -> ->]).
      destruct (resolve_repeat self ch f st c Hrep Hal) as [Hplan Hal1].
      rewrite Hres in Hplan. simpl in Hplan. rewrite <- Hplan. simpl.
      destruct (IH _ _ _ _ (S c) _ _ _ _ Hrep (Hal1 _ _ Hres) H)
        as (ps & Hps & Hlen & -> & Hal').
      exists (p :: ps). rewrite Hps. simpl. split_and!; [done|by rewrite Hlen| |].
      * by rewrite <- app_assoc.
      * by replace (c + S (length ps))%nat with (S c + length ps)%nat by lia.
    + unfold process_channel in E1. rewrite Ew in E1.
      injection E1 as <- <- <- <-. by eapply IH.
Qed.

Lemma plans_from_period self (m : nat) cs : ∀ c,
  Forall (λ arr, (m mod length arr = 0)%nat) (specs self) →
  plans_from np_pi self (m + c) cs = plans_from np_pi self c cs.
Proof.
  induction cs as [|[ch f] cs IH]; intros c Hdiv; simpl; [done|].
  replace (S (m + c)) with (m + S c)%nat by lia. rewrite IH by done.
  assert (plan_at np_pi self ch f (m + c) = plan_at np_pi self ch f c) as ->; [|done].
  unfold specs in Hdiv. repeat (apply Forall_cons in Hdiv as [? Hdiv]).
  unfold plan_at. by rewrite !spec_value_period.
Qed.

(** C9 (amended): with every spec in repeat mode and [m] mapped channels, a
    second [generate] on the same instance goes on from the cursors the first
    call left at [m]: the first call resolves the mapped channels from the
    token positions 0, 1, ..., the second from [m], [m + 1], ...; the
    resolved values of the second call are those of the first whenever the
    length of every spec divides [m]. *)
Theorem generate_twice (self : WaveGen) (hush1 hush2 : bool)
    (st0 st1 st2 : Cyclers) (data1 data2 : list Z) (log1 log2 : list Plan)
    (out1 out2 : list Line) :
  all_repeat self →
  aligned st0 0 →
  generate np_sin np_pi self hush1 st0 = Some (data1, log1, out1, st1) →
  generate np_sin np_pi self hush2 st1 = Some (data2, log2, out2, st2) →
  let m := length (mapped self) in
  plans_from np_pi self 0 (mapped self) = Some log1 ∧
  plans_from np_pi self m (mapped self) = Some log2 ∧
  aligned st1 m ∧
  aligned st2 (m + m) ∧
  (Forall (λ arr, (m mod length arr = 0)%nat) (specs self) → log2 = log1).
Proof.
  intros Hrep Hal H1 H2 m. unfold generate in H1, H2.
  destruct (np_zeros 0 (datalength self)) as [zeros|]; simpl in H1, H2; [|done].
  destruct ((nchan self <=? 0) || negb (datalength self mod nchan self =? 0));
    [done|].
  destruct (process_channels_repeat _ _ _ _ _ _ _ _ _ _ _ _ Hrep Hal H1)
    as (ps1 & Hps1 & Hlen1 & Hlog1 & Hal1).
  simpl in Hlog1, Hal1. subst log1. fold (mapped self) in Hps1, Hlen1.
  rewrite Hlen1 in Hal1. fold m in Hal1.
  destruct (process_channels_repeat _ _ _ _ _ _ _ _ _ _ _ _ Hrep Hal1 H2)
    as (ps2 & Hps2 & Hlen2 & Hlog2 & Hal2).
  simpl in Hlog2. subst log2. fold (mapped self) in Hps2, Hlen2.
  rewrite Hlen2 in Hal2. fold m in Hal2.
  split_and!; [done..|].
  intros Hdiv.
  pose proof (plans_from_period self m (mapped self) 0 Hdiv) as Hper.
  rewrite Nat.add_0_r in Hper. congruence.
Qed.

End Twice.

Lemma generate_twice_witness :
  ∃ self data1 log1 out1 st1 data2 log2 out2 st2,
    init (mkArgs 2 1 ["4"] None 2 "RAMP:ALL" ["0"] ["1"; "0.5"] ["0"] ["0"] 10 ["0"])
      = Some self ∧
    all_repeat self ∧
    aligned fresh 0 ∧
    generate sin_q pi_q self false fresh = Some (data1, log1, out1, st1) ∧
    generate sin_q pi_q self false st1 = Some (data2, log2, out2, st2) ∧
    let m := length (mapped self) in
    plans_from pi_q self 0 (mapped self) = Some log1 ∧
    plans_from pi_q self m (mapped self) = Some log2 ∧
    aligned st1 m ∧
    aligned st2 (m + m) ∧
    (Forall (λ arr, (m mod length arr = 0)%nat) (specs self) → log2 = log1).
Proof.
  eexists _, _, _, _, _, _, _, _, _.
  split; [vm_compute; reflexivity|].
  split; [repeat (apply Forall_cons; split; [vm_compute; reflexivity|]);
          constructor|].
  split; [repeat (apply Forall_cons; split; [vm_compute; reflexivity|]);
          constructor|].
  split; [vm_compute; reflexivity|].
  split; [vm_compute; reflexivity|].
  eapply (generate_twice sin_q pi_q _ false false fresh);
    [ repeat (apply Forall_cons; split; [vm_compute; reflexivity|]);
      constructor
    | repeat (apply Forall_cons; split; [vm_compute; reflexivity|]);
      constructor
    | vm_compute; reflexivity
    | vm_compute; reflexivity ].
Defined.

(** C9 as stated fails with two channels and [scale=1,0.5]: the spec has
    length 2, and the second call resolves the same values as the first. *)
Lemma generate_twice_counterexample :
  ∃ self data1 log1 out1 st1 data2 log2 out2 st2,
    init (mkArgs 2 1 ["4"] None 2 "RAMP:ALL" ["0"] ["1"; "0.5"] ["0"] ["0"] 10 ["0"])
      = Some self ∧
    (1 < length (scale self))%nat ∧
    generate sin_q pi_q self false fresh = Some (data1, log1, out1, st1) ∧
    generate sin_q pi_q self false st1 = Some (data2, log2, out2, st2) ∧
    Qred <$> (p_scale <$> log1) = [1; 1 # 2]%Q ∧
    cursor st1 "scale" = 2 ∧
    log2 = log1 ∧
    out2 = out1.
Proof.
  eexists _, _, _, _, _, _, _, _, _.
  split; [vm_compute; reflexivity|].
  split; [vm_compute; reflexivity|].
  split; [vm_compute; reflexivity|].
  split; [vm_compute; reflexivity|].
  split; [vm_compute; reflexivity|].
  split; [vm_compute; reflexivity|].
  split; vm_compute; reflexivity.
Qed.

(** * Further properties of the cyclers *)

(** ** Keys do not interfere *)

Lemma same_others_refl key st : same_others key st st.
Proof. by intros key' _. Qed.

Lemma same_others_trans key st1 st2 st3 :
  same_others key st1 st2 → same_others key st2 st3 → same_others key st1 st3.
Proof.
  intros H12 H23 key' Hne.
  destruct (H12 key' Hne) as (<- & <- & <-). by apply H23.
Qed.

Lemma same_others_set_ptr key p st : same_others key st (set_ptr key p st).
Proof. intros key' Hne. simpl. by rewrite lookup_insert_ne. Qed.

Lemma same_others_set_last key v st : same_others key st (set_last key v st).
Proof. intros key' Hne. simpl. by rewrite lookup_insert_ne. Qed.

Lemma same_others_set_range key r st : same_others key st (set_range key r st).
Proof. intros key' Hne. simpl. by rewrite lookup_insert_ne. Qed.

Lemma same_others_init_key key st : same_others key st (init_key key st).
Proof.
  unfold init_key. destruct (ptr st !! key); [apply same_others_refl|].
  eapply same_others_trans; [apply same_others_set_ptr|apply same_others_set_last].
Qed.

Lemma same_others_acc_first arr key value st value' st' :
  acc_first arr key value st = Some (value', st') → same_others key st st'.
Proof.
  unfold acc_first. destruct (range st !! key).
  - intros [= _ <-]. apply same_others_refl.
  - destruct (head arr); simpl; [|done].
    intros [= _ <-]. apply same_others_set_range.
Qed.

Lemma same_others_acc_hold arr key value st value' st' :
  acc_hold arr key value st = Some (value', st') → same_others key st st'.
Proof.
  unfold acc_hold. destruct (Py.first_char value) as [c|]; simpl; [|done].
  destruct (Ascii.eqb c "+").
  - destruct (ptr st !! key) as [p|]; simpl; [|done].
    destruct (current arr key _); simpl; [|done].
    intros [= _ <-]. apply same_others_set_ptr.
  - intros [= _ <-]. apply same_others_refl.
Qed.

Lemma same_others_acc_advance key value st v st' :
  acc_advance key value st = Some (v, st') → same_others key st st'.
Proof.
  unfold acc_advance.
  destruct (last st !! key); simpl; [|done].
  destruct (Py.float value); simpl; [|done].
  destruct (ptr st !! key); simpl; [|done].
  intros [= _ <-].
  eapply same_others_trans; [apply same_others_set_ptr|apply same_others_set_last].
Qed.

Lemma same_others_acc_step key value st v st' :
  acc_step key value st = Some (v, st') → same_others key st st'.
Proof.
  unfold acc_step.
  destruct (range st !! key) as [r|]; simpl; [|done].
  destruct (bounds r) as [[[lower upper]|]|]; simpl; [| |done].
  - destruct (last st !! key) as [l|]; simpl; [|done].
    destruct (Py.float value) as [d|] eqn:Ed; simpl; [|done].
    destruct (outside lower upper (l + d)).
    + destruct (Py.float (fst r)); simpl; [|done].
      intros [= _ <-]. apply same_others_set_last.
    + apply same_others_acc_advance.
  - apply same_others_acc_advance.
Qed.

(** X1: a pull on one key leaves the cursor, the accumulator and the range of
    every other key as they were, in either mode. *)
Theorem cycler_other_keys (arr : list string) (key key' : string)
    (st : Cyclers) (v : Q) (st' : Cyclers) :
  key ≠ key' →
  cycler_generic arr key st = Some (v, st') →
  ptr st' !! key' = ptr st !! key' ∧
  last st' !! key' = last st !! key' ∧
  range st' !! key' = range st !! key'.
Proof.
  intros Hne H. revert key' Hne. change (same_others key st st').
  unfold cycler_generic in H.
  destruct (accumulate arr) as [acc|]; simpl in H; [|done].
  destruct (current arr key (init_key key st)) as [value|]; simpl in H; [|done].
  eapply same_others_trans; [apply same_others_init_key|].
  destruct acc; simpl in H.
  - destruct (acc_first arr key value (init_key key st)) as [[v1 st1]|] eqn:E1;
      simpl in H; [|done].
    destruct (acc_hold arr key v1 st1) as [[v2 st2]|] eqn:E2; simpl in H; [|done].
    eapply same_others_trans; [by eapply same_others_acc_first|].
    eapply same_others_trans; [by eapply same_others_acc_hold|].
    by eapply same_others_acc_step.
  - destruct (ptr (init_key key st) !! key) as [p|]; simpl in H; [|done].
    destruct (Py.float value); simpl in H; [|done].
    injection H as _ <-. apply same_others_set_ptr.
Qed.

Lemma cycler_other_keys_witness :
  ∃ st1 v st2,
    cycler_generic ["+7:-7:-7"; "-2"] "offset" fresh = Some (7%Q, st1) ∧
    "scale" ≠ "offset" ∧
    cycler_generic ["1"; "0.5"] "scale" st1 = Some (v, st2) ∧
    ptr st2 !! "offset" = ptr st1 !! "offset" ∧
    last st2 !! "offset" = last st1 !! "offset" ∧
    range st2 !! "offset" = range st1 !! "offset".
Proof.
  eexists _, _, _.
  split; [vm_compute; reflexivity|].
  split; [discriminate|].
  split; [vm_compute; reflexivity|].
  eapply (cycler_other_keys ["1"; "0.5"] "scale" "offset");
    [discriminate | vm_compute; reflexivity].
Defined.

(** ** Unbounded accumulate mode *)

Lemma accumulate_first_plus a0 arr :
  accumulate (a0 :: arr) = Some true →
  ∃ c, Py.first_char a0 = Some c ∧ Ascii.eqb c "+" = true.
Proof.
  unfold accumulate. simpl.
  destruct (Py.first_char a0) as [c|]; simpl; [|done].
  intros [= H]. by exists c.
Qed.

Lemma init_key_present key st p :
  ptr st !! key = Some p → init_key key st = st.
Proof. intros H. unfold init_key. by rewrite H. Qed.

Lemma getitem_pair {A} (x y : A) (p : Z) :
  Py.getitem [x; y] (p mod 2) = Some (if p mod 2 =? 0 then x else y).
Proof.
  pose proof (Z.mod_pos_bound p 2 ltac:(lia)) as Hb.
  assert (p mod 2 = 0 ∨ p mod 2 = 1) as [->| ->] by lia; reflexivity.
Qed.

(** The token selected on a pull after the first, for a spec of a start
    token and one delta token: the delta, whatever the cursor. *)
Lemma acc_select_delta a0 t key c st p r :
  accumulate [a0; t] = Some true →
  Py.first_char t = Some c → c ≠ "+"%char →
  ptr st !! key = Some p →
  range st !! key = Some r →
  ∃ p', acc_select [a0; t] key st
        = Some (t, set_ptr key p' st) ∨
        acc_select [a0; t] key st = Some (t, st).
Proof.
  intros Hacc Hc Hne Hp Hr.
  destruct (accumulate_first_plus _ _ Hacc) as (c0 & Hc0 & Hplus).
  unfold acc_select. rewrite (init_key_present _ _ _ Hp).
  unfold current. rewrite Hp. simpl length. simpl.
  change (Z.of_nat 2) with 2. rewrite getitem_pair. simpl.
  unfold acc_first. rewrite Hr. simpl.
  destruct (Z.eqb_spec (p mod 2) 0) as [H0|H0].
  - unfold acc_hold. rewrite Hc0. simpl. rewrite Hplus, Hp. simpl.
    unfold current. simpl. rewrite lookup_insert_eq. simpl.
    change (Z.of_nat 2) with 2. rewrite getitem_pair. simpl.
    assert (((p + 1) mod 2 =? 0) = false) as ->.
    { apply Z.eqb_neq. rewrite Z.add_mod, H0 by lia. done. }
    exists (p + 1). by left.
  - unfold acc_hold. rewrite Hc. simpl.
    assert (Ascii.eqb c "+" = false) as -> by (by apply Ascii.eqb_neq).
    exists 0. by right.
Qed.

Lemma pull_delta a0 t key c d st p l :
  accumulate [a0; t] = Some true →
  bounds (parse_range a0) = Some None →
  Py.first_char t = Some c → c ≠ "+"%char →
  Py.float t = Some d →
  ptr st !! key = Some p →
  last st !! key = Some l →
  range st !! key = Some (parse_range a0) →
  ∃ st' p',
    cycler_generic [a0; t] key st = Some ((l + d)%Q, st') ∧
    ptr st' !! key = Some p' ∧
    last st' !! key = Some (l + d)%Q ∧
    range st' !! key = Some (parse_range a0).
Proof.
  intros Hacc Hb Hc Hne Hd Hp Hl Hr.
  rewrite cycler_accumulate by done.
  destruct (acc_select_delta a0 t key c st p _ Hacc Hc Hne Hp Hr)
    as (p' & [Hsel|Hsel]); rewrite Hsel; simpl.
  - unfold acc_step, acc_advance. simpl. rewrite Hr. simpl. rewrite Hb. simpl.
    rewrite Hl. simpl. rewrite Hd. simpl. rewrite lookup_insert_eq. simpl.
    eexists _, _. split; [done|]. simpl. by rewrite !lookup_insert_eq.
  - unfold acc_step, acc_advance. rewrite Hr. simpl. rewrite Hb. simpl.
    rewrite Hl. simpl. rewrite Hd. simpl. rewrite Hp. simpl.
    eexists _, _. split; [done|]. simpl. by rewrite !lookup_insert_eq.
Qed.

Lemma pulls_delta a0 t key c d n : ∀ st p l,
  accumulate [a0; t] = Some true →
  bounds (parse_range a0) = Some None →
  Py.first_char t = Some c → c ≠ "+"%char →
  Py.float t = Some d →
  ptr st !! key = Some p →
  last st !! key = Some l →
  range st !! key = Some (parse_range a0) →
  ∃ vs st',
    pulls [a0; t] key n st = Some (vs, st') ∧
    length vs = n ∧
    (∀ v, vs !! 0%nat = Some v → v = (l + d)%Q) ∧
    (∀ i v w, vs !! i = Some v → vs !! S i = Some w → w = (v + d)%Q).
Proof.
  induction n as [|n IH]; intros st p l Hacc Hb Hc Hne Hd Hp Hl Hr.
  - exists [], st. split_and!; [done..| |]; intros; done.
  - destruct (pull_delta a0 t key c d st p l Hacc Hb Hc Hne Hd Hp Hl Hr)
      as (st1 & p1 & Hpull & Hp1 & Hl1 & Hr1).
    destruct (IH st1 p1 (l + d)%Q Hacc Hb Hc Hne Hd Hp1 Hl1 Hr1)
      as (vs & st' & Hpulls & Hlen & Hv0 & Hvs).
    exists ((l + d)%Q :: vs), st'. simpl. rewrite Hpull. simpl.
    rewrite Hpulls. simpl. split_and!; [done|by rewrite Hlen| |].
    + by intros v [= <-].
    + intros [|i] v w Hv Hw; simpl in Hv, Hw.
      * injection Hv as <-. by apply Hv0.
      * by eapply Hvs.
Qed.

Lemma first_pull_unbounded arr key a0 s st :
  head arr = Some a0 →
  accumulate arr = Some true →
  bounds (parse_range a0) = Some None →
  Py.float (fst (parse_range a0)) = Some s →
  ptr st !! key = None →
  range st !! key = None →
  ∃ st',
    cycler_generic arr key st = Some ((0 + s)%Q, st') ∧
    ptr st' !! key = Some 1 ∧
    last st' !! key = Some (0 + s)%Q ∧
    range st' !! key = Some (parse_range a0).
Proof.
  intros Ha0 Hacc Hb Hs Hp Hr.
  rewrite cycler_accumulate by done.
  rewrite (acc_select_first arr key a0) by eauto using float_first_char.
  simpl. unfold acc_step, acc_advance. simpl.
  rewrite lookup_insert_eq. simpl. rewrite Hb. simpl.
  unfold init_key. rewrite Hp. simpl.
  rewrite !lookup_insert_eq. simpl.
  destruct (Py.float (fst (parse_range a0))) as [s'|] eqn:Es; [|done].
  injection Hs as ->. simpl.
  eexists. split; [done|]. simpl. by rewrite !lookup_insert_eq.
Qed.

(** X2: a spec of a start token and one delta token without bounds, such as
    [+0,40000], steps by the delta: on a key not pulled before, the first
    pull returns the start value and every later pull returns the value of
    the pull before it plus the delta, for as many pulls as are made. *)
Theorem accumulate_progression (a0 t key : string) (c : ascii) (s d : Q)
    (st : Cyclers) (n : nat) :
  accumulate [a0; t] = Some true →
  bounds (parse_range a0) = Some None →
  Py.float (fst (parse_range a0)) = Some s →
  Py.first_char t = Some c → c ≠ "+"%char →
  Py.float t = Some d →
  ptr st !! key = None →
  range st !! key = None →
  ∃ vs st',
    pulls [a0; t] key n st = Some (vs, st') ∧
    length vs = n ∧
    (∀ v, vs !! 0%nat = Some v → (v == s)%Q) ∧
    (∀ i v w, vs !! i = Some v → vs !! S i = Some w → w = (v + d)%Q).
Proof.
  intros Hacc Hb Hs Hc Hne Hd Hp Hr.
  destruct n as [|n].
  { exists [], st. split_and!; [done..| |]; intros; done. }
  destruct (first_pull_unbounded [a0; t] key a0 s st eq_refl Hacc Hb Hs Hp Hr)
    as (st1 & Hpull & Hp1 & Hl1 & Hr1).
  destruct (pulls_delta a0 t key c d n st1 1 (0 + s)%Q Hacc Hb Hc Hne Hd Hp1 Hl1 Hr1)
    as (vs & st' & Hpulls & Hlen & Hv0 & Hvs).
  exists ((0 + s)%Q :: vs), st'. cbn [pulls]. rewrite Hpull. simpl.
  rewrite Hpulls. simpl. split_and!; [done|by rewrite Hlen| |].
  - intros v [= <-]. apply Qplus_0_l.
  - intros [|i] v w Hv Hw; simpl in Hv, Hw.
    + injection Hv as <-. by apply Hv0.
    + by eapply Hvs.
Qed.

Lemma accumulate_progression_witness :
  accumulate ["+0"; "40000"] = Some true ∧
  bounds (parse_range "+0") = Some None ∧
  Py.float (fst (parse_range "+0")) = Some 0%Q ∧
  Py.first_char "40000" = Some "4"%char ∧
  "4"%char ≠ "+"%char ∧
  Py.float "40000" = Some (40000 # 1)%Q ∧
  ptr fresh !! "spos" = None ∧
  range fresh !! "spos" = None ∧
  pull_values ["+0"; "40000"] "spos" 4
    = Some [0; 40000 # 1; 80000 # 1; 120000 # 1]%Q ∧
  ∃ vs st',
    pulls ["+0"; "40000"] "spos" 4 fresh = Some (vs, st') ∧
    length vs = 4%nat ∧
    (∀ v, vs !! 0%nat = Some v → (v == 0)%Q) ∧
    (∀ i v w, vs !! i = Some v → vs !! S i = Some w →
              w = (v + (40000 # 1))%Q).
Proof.
  do 4 (split; [reflexivity|]). split; [discriminate|].
  do 3 (split; [reflexivity|]). split; [vm_compute; reflexivity|].
  apply (accumulate_progression "+0" "40000" "spos" "4" 0%Q (40000 # 1)%Q fresh 4);
    first [reflexivity | discriminate].
Defined.

(** X3: a spec of a single token in accumulate mode whose token is not itself a
    float literal (it declares bounds, as [+0:10], or carries a sign, as
    [+-5]) can be pulled once only: every pull on a key that has its range
    raises, since the token is then its own delta. *)
Theorem single_token_accumulate_fails (a0 key : string) (st : Cyclers)
    (r : string * option string) :
  accumulate [a0] = Some true →
  Py.float a0 = None →
  range st !! key = Some r →
  cycler_generic [a0] key st = None.
Proof.
  intros Hacc Hf Hr.
  destruct (accumulate_first_plus _ _ Hacc) as (c0 & Hc0 & Hplus).
  unfold cycler_generic. rewrite Hacc. simpl.
  assert (∀ st0, is_Some (ptr st0 !! key) →
            current [a0] key st0 = Some a0) as Hcur.
  { intros st0 [p Hp]. unfold current. rewrite Hp. simpl.
    change (Z.of_nat 1) with 1. by rewrite Z.mod_1_r. }
  rewrite Hcur by (rewrite ptr_init_key; by eexists). simpl.
  unfold acc_first. rewrite init_key_range, Hr. simpl.
  unfold acc_hold. rewrite Hc0. simpl. rewrite Hplus, ptr_init_key. simpl.
  rewrite Hcur by (simpl; rewrite lookup_insert_eq; by eexists). simpl.
  unfold acc_step, acc_advance. simpl. rewrite init_key_range, Hr. simpl.
  destruct (bounds r) as [[[lower upper]|]|]; simpl; [| |done].
  - destruct (last (init_key key st) !! key); simpl; [|done].
    by rewrite Hf.
  - destruct (last (init_key key st) !! key); simpl; [|done].
    by rewrite Hf.
Qed.

Lemma single_token_accumulate_fails_witness :
  ∃ v st1,
    cycler_generic ["+0:10"] "spos" fresh = Some (v, st1) ∧
    accumulate ["+0:10"] = Some true ∧
    Py.float "+0:10" = None ∧
    range st1 !! "spos" = Some ("0", Some "10") ∧
    cycler_generic ["+0:10"] "spos" st1 = None.
Proof.
  eexists _, _. split; [vm_compute; reflexivity|].
  split; [reflexivity|]. split; [reflexivity|].
  split; [vm_compute; reflexivity|].
  eapply (single_token_accumulate_fails "+0:10" "spos");
    [reflexivity | reflexivity | vm_compute; reflexivity].
Defined.

(** * Further properties of the unit conversions *)

(** ** [normalize] *)

Lemma mod1_range (x : Q) : (0 <= Py.mod1 x ∧ Py.mod1 x < 1)%Q.
Proof.
  unfold Py.mod1. pose proof (Qfloor_le x) as H1. pose proof (Qlt_floor x) as H2.
  rewrite inject_Z_plus in H2. change (inject_Z 1) with 1%Q in H2.
  split.
  - by apply Qle_minus_iff in H1.
  - apply Qlt_minus_iff. apply Qlt_minus_iff in H2.
    assert (1 + - (x - inject_Z (Qfloor x)) == inject_Z (Qfloor x) + 1 + - x)%Q
      as -> by ring.
    done.
Qed.

Lemma round3_range (m : Q) :
  (0 <= m)%Q → (m < 1)%Q → (0 <= Py.round3 m ∧ Py.round3 m <= 1)%Q.
Proof.
  intros H0 H1. unfold Py.round3.
  set (y := (m * inject_Z 1000)%Q).
  assert (0 <= y)%Q as Hy0.
  { unfold y. apply Qmult_le_0_compat; [done|discriminate]. }
  assert (y < inject_Z 1000)%Q as Hy1.
  { unfold y. rewrite <- (Qmult_1_l (inject_Z 1000)) at 2.
    apply Qmult_lt_r; [reflexivity|done]. }
  assert (0 ≤ Qfloor y) as Hf0.
  { exact (Qfloor_resp_le _ _ Hy0). }
  assert (Qfloor y < 1000) as Hf1.
  { rewrite Zlt_Qlt. eapply Qle_lt_trans; [apply Qfloor_le|done]. }
  set (f := Qfloor y) in *. clearbody f.
  destruct (match (y - inject_Z f ?= 1 # 2)%Q with
            | Lt => false | Gt => true | Eq => Z.odd f end);
    unfold Qle; simpl; lia.
Qed.

(** X4: on a finite value, [normalize] never leaves the closed unit
    interval. *)
Theorem normalize_range (n : Q) : (0 <= normalize n ∧ normalize n <= 1)%Q.
Proof.
  unfold normalize.
  destruct (Qeq_bool n 0); [split; discriminate|].
  destruct (Qeq_bool (Py.mod1 n) 0); [split; discriminate|].
  destruct (mod1_range n). by apply round3_range.
Qed.

(** ** The offset *)

Lemma int_bound (q : Q) (M : Z) :
  0 ≤ M → (- inject_Z M <= q)%Q → (q <= inject_Z M)%Q → - M ≤ Py.int q ≤ M.
Proof.
  intros HM Hlo Hhi. destruct q as [n d]. unfold Py.int. simpl.
  unfold Qle in *. simpl in *.
  pose proof (Z.quot_rem' n (Z.pos d)) as Hqr.
  assert (0 ≤ n → 0 ≤ Z.rem n (Z.pos d) < Z.pos d) as Hpos
    by (intros; apply Z.rem_bound_pos; lia).
  assert (n ≤ 0 → - Z.pos d < Z.rem n (Z.pos d) ≤ 0) as Hneg
    by (intros; apply Z.rem_bound_pos_neg; lia).
  assert (0 < Z.pos d) as Hd by lia.
  set (k := Z.quot n (Z.pos d)) in *. set (r := Z.rem n (Z.pos d)) in *.
  set (D := Z.pos d) in *. clearbody k r D.
  destruct (Z.le_gt_cases 0 n) as [Hn|Hn].
  - specialize (Hpos Hn). nia.
  - specialize (Hneg ltac:(lia)). nia.
Qed.

Lemma max_value_representable d x :
  - iinfo_max d ≤ x ≤ iinfo_max d → representable d x.
Proof. unfold representable, iinfo_max. destruct d; simpl; lia. Qed.

(** X5: an offset whose cycler value lies within the reference voltage, as a
    voltage inside the range of the device does, resolves to an integer
    between [-max_value] and [max_value], which the output type holds. *)
Theorem offset_within_voltage (self : WaveGen) (st : Cyclers) (v : Q)
    (st' : Cyclers) :
  0 < voltage self →
  cycler_generic (offset self) "offset" st = Some (v, st') →
  (- inject_Z (voltage self) <= v)%Q →
  (v <= inject_Z (voltage self))%Q →
  ∃ off,
    get_offset self st = Some (off, st') ∧
    - max_value self ≤ off ≤ max_value self ∧
    representable (dtype self) off.
Proof.
  intros HV Hpull Hlo Hhi. unfold get_offset. rewrite Hpull. simpl.
  destruct (Z.eqb_spec (voltage self) 0) as [|_]; [lia|].
  eexists. split; [done|].
  assert (0 ≤ max_value self) as Hmax.
  { unfold max_value, iinfo_max. destruct (dtype self); simpl; lia. }
  assert (0 < inject_Z (voltage self))%Q as HVq by (by rewrite <- (Zlt_Qlt 0)).
  assert (0 <= inject_Z (max_value self))%Q as HMq by (by rewrite <- (Zle_Qle 0)).
  assert (- inject_Z (max_value self)
          <= v / inject_Z (voltage self) * inject_Z (max_value self))%Q as H1.
  { assert (- inject_Z (max_value self)
            == (- (1)) * inject_Z (max_value self))%Q as -> by ring.
    apply Qmult_le_compat_r; [|done].
    apply Qle_shift_div_l; [done|].
    assert (- (1) * inject_Z (voltage self) == - inject_Z (voltage self))%Q
      as -> by ring.
    done. }
  assert (v / inject_Z (voltage self) * inject_Z (max_value self)
          <= inject_Z (max_value self))%Q as H2.
  { rewrite <- (Qmult_1_l (inject_Z (max_value self))) at 2.
    apply Qmult_le_compat_r; [|done].
    apply Qle_shift_div_r; [done|]. by rewrite Qmult_1_l. }
  pose proof (int_bound _ _ Hmax H1 H2) as Hb.
  split; [done|]. by apply max_value_representable.
Qed.

Lemma offset_within_voltage_witness :
  ∃ self v st' off,
    init (mkArgs 1 1 ["4"] None 2 "SINE:ALL" ["0"] ["1"] ["0"] ["0"] 10
            ["+7:-7:-7"; "-2"]) = Some self ∧
    0 < voltage self ∧
    cycler_generic (offset self) "offset" fresh = Some (v, st') ∧
    (- inject_Z (voltage self) <= v)%Q ∧
    (v <= inject_Z (voltage self))%Q ∧
    get_offset self fresh = Some (off, st') ∧
    off = 22936 ∧
    ∃ off',
      get_offset self fresh = Some (off', st') ∧
      - max_value self ≤ off' ≤ max_value self ∧
      representable (dtype self) off'.
Proof.
  eexists _, _, _, _.
  split; [vm_compute; reflexivity|].
  split; [vm_compute; reflexivity|].
  split; [vm_compute; reflexivity|].
  split; [vm_compute; discriminate|].
  split; [vm_compute; discriminate|].
  split; [vm_compute; reflexivity|].
  split; [reflexivity|].
  eapply (offset_within_voltage _ fresh);
    [ vm_compute; reflexivity | vm_compute; reflexivity
    | vm_compute; discriminate | vm_compute; discriminate ].
Defined.

(** * Properties of the configuration *)

(** ** Splitting and joining *)

Lemma split_nonempty sep s : Py.split sep s ≠ [].
Proof. destruct (split_head sep s) as (w & ws & -> & _). done. Qed.

Lemma concat_cons sep x l :
  l ≠ [] → String.concat sep (x :: l) = (x ++ sep ++ String.concat sep l)%string.
Proof. by destruct l. Qed.

Lemma split_join (c : ascii) (s : string) :
  String.concat (String c EmptyString) (Py.split c s) = s.
Proof.
  induction s as [|a s IH]; [done|]. simpl.
  destruct (Ascii.eqb_spec a c) as [->|Hne].
  - rewrite concat_cons by apply split_nonempty. simpl. by rewrite IH.
  - destruct (Py.split c s) as [|w ws] eqn:E; [by apply split_nonempty in E|].
    destruct ws as [|w' ws].
    + simpl in *. by rewrite IH.
    + rewrite concat_cons by done. rewrite concat_cons in IH by done.
      transitivity
        (String a (w ++ String c EmptyString
                     ++ String.concat (String c EmptyString) (w' :: ws)))%string;
        [reflexivity | by rewrite IH].
Qed.

Lemma split_parts_free (c : ascii) (s : string) :
  Forall (λ tok, contains c tok = false) (Py.split c s).
Proof.
  induction s as [|a s IH]; simpl; [by repeat constructor|].
  destruct (Ascii.eqb_spec a c) as [->|Hne].
  - by constructor.
  - destruct (Py.split c s) as [|w ws] eqn:E; [by apply split_nonempty in E|].
    apply Forall_cons in IH as [Hw Hws]. constructor; [|done].
    simpl. rewrite Hw, orb_false_r. apply Ascii.eqb_neq. congruence.
Qed.

(** X6: [comma_list] loses nothing: joining its tokens with commas gives the
    argument back; there is at least one token, and no token holds a
    comma. *)
Theorem comma_list_round_trip (arg : string) :
  String.concat "," (comma_list arg) = arg ∧
  comma_list arg ≠ [] ∧
  Forall (λ tok, contains "," tok = false) (comma_list arg).
Proof.
  unfold comma_list. split_and!.
  - apply split_join.
  - apply split_nonempty.
  - apply split_parts_free.
Qed.

(** ** Channel lists *)

Lemma elem_of_py_range (a b step x : Z) :
  0 < step →
  x ∈ py_range a b step ↔ ∃ i, 0 ≤ i ∧ x = a + i * step ∧ x < b.
Proof.
  intros Hs. unfold py_range. rewrite list_elem_of_fmap.
  pose proof (Z.div_mod (b - a + step - 1) step ltac:(lia)) as Hdm.
  pose proof (Z.mod_pos_bound (b - a + step - 1) step Hs) as Hmb.
  set (q := (b - a + step - 1) `div` step) in *.
  set (r := (b - a + step - 1) `mod` step) in *. clearbody q r.
  split.
  - intros (i & -> & Hi). apply elem_of_seqZ in Hi.
    exists i. split_and!; [lia|done|nia].
  - intros (i & Hi0 & -> & Hlt). exists i. split; [done|].
    apply elem_of_seqZ. nia.
Qed.

(** X7: the channel keywords, in any letter case: ALL is every channel from 1 to
    [nchan], ODD and EVEN are its odd and its even channels. *)
Theorem get_channels_keywords (nchan : Z) (chans : string) :
  (upper chans = "ALL" →
     ∃ l, get_channels nchan chans = Some l ∧
          ∀ c, c ∈ l ↔ 1 ≤ c ≤ nchan) ∧
  (upper chans = "ODD" →
     ∃ l, get_channels nchan chans = Some l ∧
          ∀ c, c ∈ l ↔ 1 ≤ c ≤ nchan ∧ Z.odd c = true) ∧
  (upper chans = "EVEN" →
     ∃ l, get_channels nchan chans = Some l ∧
          ∀ c, c ∈ l ↔ 1 ≤ c ≤ nchan ∧ Z.even c = true).
Proof.
  unfold get_channels. split_and!; intros ->; simpl; eexists; (split; [done|]);
    intros c; rewrite elem_of_py_range by lia.
  - split.
    + intros (i & Hi & -> & Hlt). lia.
    + intros Hc. exists (c - 1). lia.
  - split.
    + intros (i & Hi & -> & Hlt). split; [lia|].
      replace (1 + i * 2) with (1 + 2 * i) by lia.
      by rewrite Z.odd_add_mul_2.
    + intros [Hc Hodd]. apply Z.odd_spec in Hodd as [k ->].
      exists k. lia.
  - split.
    + intros (i & Hi & -> & Hlt). split; [lia|].
      replace (2 + i * 2) with (2 + 2 * i) by lia.
      by rewrite Z.even_add_mul_2.
    + intros [Hc Hev]. apply Z.even_spec in Hev as [k ->].
      exists (k - 1). lia.
Qed.

(** ** The wave table *)

Lemma lookup_assign (f : WaveFn) (chans : list Z) : ∀ (m : gmap Z WaveFn) c,
  foldl (λ m chan, <[chan := f]> m) m chans !! c
  = if decide (c ∈ chans) then Some f else m !! c.
Proof.
  induction chans as [|ch chans IH]; intros m c; simpl.
  - destruct (decide (c ∈ [])) as [H|]; [by apply elem_of_nil in H|done].
  - rewrite IH.
    destruct (decide (c ∈ chans)) as [Hin|Hnin].
    + rewrite decide_True; [done|by right].
    + destruct (decide (c = ch)) as [->|Hne].
      * rewrite lookup_insert_eq. rewrite decide_True; [done|by left].
      * rewrite lookup_insert_ne by done.
        rewrite decide_False; [done|].
        intros [?|?]%elem_of_cons; done.
Qed.

Lemma init_wave_fold nchan wave :
  init_wave nchan wave = foldl (wave_step nchan) (Some ∅) (Py.split "/" wave).
Proof. reflexivity. Qed.

Lemma wave_fold_none nchan values : foldl (wave_step nchan) None values = None.
Proof. induction values as [|v values IH]; [done|]. simpl. apply IH. Qed.

(** X8: the last selector of the wave string decides: every channel it lists has
    its function, whatever the selectors before it say. *)
Theorem init_wave_last_wins (nchan : Z) (wave : string)
    (values : list string) (value selector channels : string)
    (chans : list Z) (f : WaveFn) (m : gmap Z WaveFn) (c : Z) :
  Py.split "/" wave = values ++ [value] →
  Py.split ":" value = [selector; channels] →
  get_channels nchan channels = Some chans →
  wave_funcs selector = Some f →
  init_wave nchan wave = Some m →
  c ∈ chans →
  m !! c = Some f.
Proof.
  intros Hsplit Hvalue Hchans Hf Hinit Hc.
  rewrite init_wave_fold, Hsplit, foldl_app in Hinit. simpl in Hinit.
  destruct (foldl (wave_step nchan) (Some ∅) values) as [m0|]; [|done].
  unfold wave_step in Hinit. simpl in Hinit.
  rewrite Hvalue in Hinit. simpl in Hinit. rewrite Hchans in Hinit.
  simpl in Hinit.
  destruct chans as [|ch chans]; [by apply elem_of_nil in Hc|].
  rewrite Hf in Hinit. injection Hinit as <-.
  rewrite lookup_assign. destruct (decide (c ∈ chans)) as [|Hnin]; [done|].
  apply elem_of_cons in Hc as [->|Hc]; [|done]. apply lookup_insert_eq.
Qed.

Lemma init_wave_last_wins_witness :
  ∃ m,
    Py.split "/" "SINE:ALL/RAMP:2,3" = ["SINE:ALL"] ++ ["RAMP:2,3"] ∧
    Py.split ":" "RAMP:2,3" = ["RAMP"; "2,3"] ∧
    get_channels 4 "2,3" = Some [2; 3] ∧
    wave_funcs "RAMP" = Some RAMP ∧
    init_wave 4 "SINE:ALL/RAMP:2,3" = Some m ∧
    3 ∈ [2; 3] ∧
    m !! 3 = Some RAMP ∧
    m !! 1 = Some SINE.
Proof.
  eexists. do 4 (split; [reflexivity|]).
  split; [vm_compute; reflexivity|].
  split; [by right; left|].
  split; [|vm_compute; reflexivity].
  eapply (init_wave_last_wins 4 "SINE:ALL/RAMP:2,3" ["SINE:ALL"] "RAMP:2,3"
            "RAMP" "2,3" [2; 3] RAMP _ 3);
    [reflexivity | reflexivity | reflexivity | reflexivity
    | vm_compute; reflexivity | by right; left].
Defined.

Lemma wave_fold_unlisted nchan (c : Z) values : ∀ m0 m,
  m0 !! c = None →
  (∀ value selector channels chans,
     value ∈ values →
     Py.split ":" value = [selector; channels] →
     get_channels nchan channels = Some chans →
     c ∉ chans) →
  foldl (wave_step nchan) (Some m0) values = Some m →
  m !! c = None.
Proof.
  induction values as [|v values IH]; intros m0 m Hm0 Hun H; cbn [foldl] in H.
  - by injection H as <-.
  - destruct (wave_step nchan (Some m0) v) as [m1|] eqn:E1;
      [|by rewrite wave_fold_none in H].
    apply (IH m1 m); [|intros; eapply Hun; eauto; by right|done].
    unfold wave_step in E1. simpl in E1.
    destruct (Py.split ":" v) as [|sel [|chs [|]]] eqn:Ev; try done.
    destruct (get_channels nchan chs) as [chans|] eqn:Ech; simpl in E1; [|done].
    assert (c ∉ chans) as Hc by (eapply Hun; eauto; by left).
    destruct chans as [|ch chans]; [by injection E1 as <-|].
    destruct (wave_funcs sel) as [f|]; simpl in E1; [|done].
    injection E1 as <-. rewrite lookup_assign.
    destruct (decide (c ∈ chans)) as [Hin|_]; [destruct Hc; by right|].
    rewrite lookup_insert_ne; [done|]. intros ->. destruct Hc. by left.
Qed.

(** X9: a channel that no selector of the wave string lists has no waveform
    function. *)
Theorem init_wave_unlisted (nchan : Z) (wave : string) (m : gmap Z WaveFn)
    (c : Z) :
  init_wave nchan wave = Some m →
  (∀ value selector channels chans,
     value ∈ Py.split "/" wave →
     Py.split ":" value = [selector; channels] →
     get_channels nchan channels = Some chans →
     c ∉ chans) →
  m !! c = None.
Proof.
  intros Hinit Hun. rewrite init_wave_fold in Hinit.
  by eapply (wave_fold_unlisted nchan c _ ∅ m).
Qed.

Lemma init_wave_unlisted_witness :
  ∃ m,
    init_wave 2 "SINE:1" = Some m ∧
    (∀ value selector channels chans,
       value ∈ Py.split "/" "SINE:1" →
       Py.split ":" value = [selector; channels] →
       get_channels 2 channels = Some chans →
       2 ∉ chans) ∧
    m !! 2 = None.
Proof.
  assert (∀ value selector channels chans,
       value ∈ Py.split "/" "SINE:1" →
       Py.split ":" value = [selector; channels] →
       get_channels 2 channels = Some chans →
       2 ∉ chans) as Hun.
  { intros value selector channels chans Hin Hv Hch.
    apply list_elem_of_singleton in Hin as ->.
    injection Hv as <- <-. injection Hch as <-.
    intros H. apply list_elem_of_singleton in H. discriminate H. }
  eexists. split; [vm_compute; reflexivity|]. split; [exact Hun|].
  eapply (init_wave_unlisted 2 "SINE:1" _ 2);
    [vm_compute; reflexivity | exact Hun].
Defined.

(** X10: a selector that does not split on ":" into exactly a name and a channel
    list makes the whole wave string an error, wherever it stands. *)
Theorem init_wave_malformed (nchan : Z) (wave value : string) :
  value ∈ Py.split "/" wave →
  length (Py.split ":" value) ≠ 2%nat →
  init_wave nchan wave = None.
Proof.
  intros Hin Hlen. rewrite init_wave_fold.
  generalize (Some (∅ : gmap Z WaveFn)) as acc.
  induction (Py.split "/" wave) as [|v values IH]; intros acc.
  - by apply elem_of_nil in Hin.
  - cbn [foldl]. apply elem_of_cons in Hin as [<-|Hin]; [|by apply IH].
    assert (wave_step nchan acc value = None) as ->; [|apply wave_fold_none].
    unfold wave_step. destruct acc as [m0|]; simpl; [|done].
    destruct (Py.split ":" value) as [|sel [|chs [|]]]; simpl in *; done.
Qed.

Lemma init_wave_malformed_witness :
  "RAMP" ∈ Py.split "/" "SINE:1/RAMP" ∧
  length (Py.split ":" "RAMP") ≠ 2%nat ∧
  init_wave 3 "SINE:1/RAMP" = None.
Proof.
  assert ("RAMP" ∈ Py.split "/" "SINE:1/RAMP") as Hin by (by right; left).
  split; [exact Hin|]. split; [discriminate|].
  apply (init_wave_malformed 3 "SINE:1/RAMP" "RAMP"); [exact Hin|discriminate].
Defined.

(** * Properties of the waveforms and of the placement *)

Lemma linspace_length start stop num xs :
  linspace start stop num = Some xs → 0 ≤ num ∧ length xs = Z.to_nat num.
Proof.
  unfold linspace. destruct (Z.ltb_spec num 0); [done|].
  destruct (Z.eqb_spec num 1) as [->|_].
  - intros [= <-]. split; [lia|done].
  - intros [= <-]. split; [done|]. by rewrite length_fmap, length_seqZ.
Qed.

Lemma linspace_total start stop num :
  0 ≤ num → is_Some (linspace start stop num).
Proof.
  intros H. unfold linspace. destruct (Z.ltb_spec num 0); [lia|].
  destruct (num =? 1); by eexists.
Qed.

Lemma linspace_negative start stop num :
  num < 0 → linspace start stop num = None.
Proof. intros H. unfold linspace. by destruct (Z.ltb_spec num 0); [|lia]. Qed.

Lemma getslice_prefix {A} (l : list A) (w : Z) :
  0 ≤ w ≤ Z.of_nat (length l) → getslice l 0 w = take (Z.to_nat w) l.
Proof.
  intros Hw. unfold getslice, slice_start, slice_len, slice_index.
  destruct (Z.ltb_spec w 0); [lia|]. simpl.
  rewrite Z.min_l by lia. rewrite Z.min_l by lia.
  by rewrite Z.sub_0_r.
Qed.

Lemma setslice_exact (l : list Z) (a b : Z) (src : list Z) :
  0 ≤ a ≤ b ∧ b ≤ Z.of_nat (length l) →
  length src = Z.to_nat (b - a) →
  setslice l a b src
  = Some (take (Z.to_nat a) l ++ src ++ drop (Z.to_nat a + Z.to_nat (b - a)) l).
Proof.
  intros Hab Hsrc. unfold setslice, slice_start, slice_len, slice_index.
  destruct (Z.ltb_spec a 0); [lia|]. destruct (Z.ltb_spec b 0); [lia|].
  rewrite !Z.min_l by lia.
  by rewrite (proj2 (Nat.eqb_eq _ _) Hsrc).
Qed.

Section Waves.

Variable np_sin : Q → Q.
Variable np_pi : Q.

Lemma gen_negative (f : WaveFn) (self : WaveGen) (wavelength : Z) (phase : Q) :
  f ≠ NULL → wavelength < 0 → gen np_sin np_pi f self wavelength phase = None.
Proof.
  intros Hf Hneg. destruct f; [| | |done]; simpl;
    unfold gen_square, gen_sine, gen_ramp;
    by rewrite linspace_negative.
Qed.

Lemma gen_length (f : WaveFn) (self : WaveGen) (wavelength : Z) (phase : Q) :
  f ≠ NULL → 0 ≤ wavelength →
  ∃ ys, gen np_sin np_pi f self wavelength phase = Some ys ∧
        length ys = Z.to_nat wavelength.
Proof.
  intros Hf Hpos.
  destruct f; [| | |done]; simpl; unfold gen_square, gen_sine, gen_ramp.
  - destruct (linspace_total (- phase)
                (- phase + inject_Z (cycles self * 2) * np_pi) wavelength Hpos)
      as [xs Hxs].
    rewrite Hxs. simpl. eexists. split; [done|].
    rewrite length_map. by apply linspace_length in Hxs as [_ ->].
  - destruct (linspace_total 0 (inject_Z (cycles self)) wavelength Hpos)
      as [xs Hxs].
    rewrite Hxs. simpl. eexists. split; [done|].
    rewrite length_map. by apply linspace_length in Hxs as [_ ->].
  - destruct (linspace_total (- phase)
                (- phase + inject_Z (cycles self * 2) * np_pi) wavelength Hpos)
      as [xs Hxs].
    rewrite Hxs. simpl. eexists. split; [done|].
    rewrite !length_map. by apply linspace_length in Hxs as [_ ->].
Qed.

(** X11: SINE, RAMP and SQUARE have exactly [wavelength] samples, none for a
    wavelength of 0, and raise on a negative wavelength. *)
Theorem waveform_length (f : WaveFn) (self : WaveGen) (wavelength : Z)
    (phase : Q) :
  f ≠ NULL →
  (wavelength < 0 → gen np_sin np_pi f self wavelength phase = None) ∧
  (0 ≤ wavelength →
     ∃ ys, gen np_sin np_pi f self wavelength phase = Some ys ∧
           length ys = Z.to_nat wavelength).
Proof.
  intros Hf. split.
  - by apply gen_negative.
  - by apply gen_length.
Qed.

(** X12: every RAMP sample lies between 0 and 1, and every SQUARE sample is
    -1, 0 or 1. *)
Theorem waveform_values (self : WaveGen) (wavelength : Z) (phase : Q)
    (ys : list Q) :
  (gen_ramp self wavelength phase = Some ys →
     Forall (λ y, (0 <= y ∧ y <= 1)%Q) ys) ∧
  (gen_square np_sin np_pi self wavelength phase = Some ys →
     Forall (λ y, y = (-1)%Q ∨ y = 0%Q ∨ y = 1%Q) ys).
Proof.
  split.
  - unfold gen_ramp.
    destruct (linspace 0 (inject_Z (cycles self)) wavelength) as [xs|];
      simpl; [|done].
    intros [= <-]. apply Forall_forall. intros y Hy.
    apply list_elem_of_In, in_map_iff in Hy as (x & <- & _).
    destruct (mod1_range (x + phase)) as [H0 H1].
    split; [done|by apply Qlt_le_weak].
  - unfold gen_square, gen_sine.
    destruct (linspace _ _ wavelength) as [xs|]; simpl; [|done].
    intros [= <-]. apply Forall_forall. intros y Hy.
    apply list_elem_of_In, in_map_iff in Hy as (x & <- & _).
    unfold np_sign. destruct (x ?= 0)%Q; auto.
Qed.

(** The samples [generate] writes for a plan: the waveform times
    [max_value * scale], converted to the output type. *)
Lemma place_window (self : WaveGen) (p : Plan) (trk : list Z) (ys : list Q) :
  gen np_sin np_pi (p_wave p) self (p_wavelength p) (p_phase p) = Some ys →
  length ys = Z.to_nat (p_wavelength p) →
  0 ≤ p_spos p →
  0 ≤ p_crop p ≤ p_wavelength p →
  Z.of_nat (length trk) = totallength self →
  place np_sin np_pi self p trk
  = Some (take (Z.to_nat (d0 self p)) trk
          ++ take (Z.to_nat (d1 self p - d0 self p))
               (astype (dtype self)
                  ((λ y, y * (inject_Z (max_value self) * p_scale p))%Q <$> ys))
          ++ drop (Z.to_nat (d0 self p) + Z.to_nat (d1 self p - d0 self p)) trk).
Proof.
  intros Hys Hlys Hspos Hcrop Hlen.
  set (samples := astype (dtype self)
         ((λ y, y * (inject_Z (max_value self) * p_scale p))%Q <$> ys)).
  assert (length samples = Z.to_nat (p_wavelength p)) as Hls.
  { unfold samples, astype. by rewrite !length_fmap. }
  assert (0 ≤ d0 self p ≤ d1 self p ∧ d1 self p ≤ totallength self
          ∧ d1 self p - d0 self p ≤ p_wavelength p) as (Hd0 & Hd1 & Hw).
  { unfold d1, d0. lia. }
  unfold place. rewrite Hys. simpl. fold samples.
  rewrite getslice_prefix by lia.
  apply setslice_exact; [lia|].
  rewrite length_take. lia.
Qed.

(** X13: a well-formed placement (a waveform other than NULL, a start position
    that is not negative, a crop between 0 and the wavelength) is accepted:
    the window is [d0, d1) with [0 <= d0 <= d1 <= totallength], it receives
    the first [d1 - d0] converted samples, and the rest of the track is
    untouched. *)
Theorem place_wellformed (self : WaveGen) (p : Plan) (trk : list Z) :
  p_wave p ≠ NULL →
  0 ≤ p_spos p →
  0 ≤ p_crop p ≤ p_wavelength p →
  Z.of_nat (length trk) = totallength self →
  ∃ ys trk',
    gen np_sin np_pi (p_wave p) self (p_wavelength p) (p_phase p) = Some ys ∧
    length ys = Z.to_nat (p_wavelength p) ∧
    place np_sin np_pi self p trk = Some trk' ∧
    length trk' = length trk ∧
    0 ≤ d0 self p ≤ d1 self p ∧ d1 self p ≤ totallength self ∧
    (∀ i : nat,
       d0 self p ≤ Z.of_nat i < d1 self p →
       trk' !! i
       = astype (dtype self)
           ((λ y, y * (inject_Z (max_value self) * p_scale p))%Q <$> ys)
         !! (i - Z.to_nat (d0 self p))%nat) ∧
    (∀ i : nat,
       Z.of_nat i < d0 self p ∨ d1 self p ≤ Z.of_nat i →
       trk' !! i = trk !! i).
Proof.
  intros Hf Hspos Hcrop Hlen.
  destruct (gen_length (p_wave p) self (p_wavelength p) (p_phase p) Hf)
    as (ys & Hys & Hlys); [lia|].
  pose proof (place_window self p trk ys Hys Hlys Hspos Hcrop Hlen) as Hplace.
  set (samples := astype (dtype self)
         ((λ y, y * (inject_Z (max_value self) * p_scale p))%Q <$> ys)) in *.
  assert (length samples = Z.to_nat (p_wavelength p)) as Hls.
  { unfold samples, astype. by rewrite !length_fmap. }
  assert (0 ≤ d0 self p ≤ d1 self p ∧ d1 self p ≤ totallength self
          ∧ d1 self p - d0 self p ≤ p_wavelength p) as (Hd0 & Hd1 & Hw).
  { unfold d1, d0. lia. }
  exists ys, (take (Z.to_nat (d0 self p)) trk
              ++ take (Z.to_nat (d1 self p - d0 self p)) samples
              ++ drop (Z.to_nat (d0 self p)
                       + Z.to_nat (d1 self p - d0 self p)) trk).
  split_and!; [done|done|done| |lia|lia|lia| |].
  - rewrite !length_app, !length_take, length_drop. lia.
  - intros i Hi.
    rewrite lookup_app_r by (rewrite length_take; lia).
    rewrite length_take.
    replace (Z.to_nat (d0 self p) `min` length trk)%nat
      with (Z.to_nat (d0 self p)) by lia.
    rewrite lookup_app_l by (rewrite length_take; lia).
    rewrite lookup_take. by rewrite decide_True by lia.
  - intros i Hi.
    eapply place_outside; [exact Hplace|].
    apply window_plain; lia.
Qed.

End Waves.

(** X14: samples between -1 and 1 times a scale between 0 and 1 fit the output
    type: the conversion only truncates, nothing wraps, and every sample is
    between [-max_value] and [max_value]. *)
Theorem scaled_samples_fit (self : WaveGen) (scale : Q) (ys : list Q) :
  (0 <= scale)%Q → (scale <= 1)%Q →
  Forall (λ y, (- (1) <= y ∧ y <= 1)%Q) ys →
  let scaled := (λ y, (y * (inject_Z (max_value self) * scale))%Q) <$> ys in
  astype (dtype self) scaled = Py.int <$> scaled ∧
  Forall (λ z, - max_value self ≤ z ≤ max_value self) (astype (dtype self) scaled).
Proof.
  intros Hs0 Hs1 Hys scaled.
  assert (0 ≤ max_value self) as Hmax.
  { unfold max_value, iinfo_max. destruct (dtype self); simpl; lia. }
  assert (0 <= inject_Z (max_value self))%Q as HMq by (by rewrite <- (Zle_Qle 0)).
  assert (∀ x, x ∈ scaled → - max_value self ≤ Py.int x ≤ max_value self) as Hb.
  { intros x Hx. unfold scaled in Hx.
    apply list_elem_of_fmap in Hx as (y & -> & Hy).
    rewrite Forall_forall in Hys. destruct (Hys y Hy) as [Hy0 Hy1].
    set (M := inject_Z (max_value self)) in *.
    set (K := (M * scale)%Q).
    assert (0 <= K)%Q as HK0 by (by apply Qmult_le_0_compat).
    assert (K <= M)%Q as HK1.
    { assert (K == scale * M)%Q as -> by (unfold K; ring).
      rewrite <- (Qmult_1_l M) at 2. by apply Qmult_le_compat_r. }
    apply int_bound; [done| |].
    - apply Qle_trans with (- K)%Q; [by apply Qopp_le_compat|].
      assert (- K == - (1) * K)%Q as -> by ring.
      by apply Qmult_le_compat_r.
    - apply Qle_trans with K; [|done].
      rewrite <- (Qmult_1_l K) at 2. by apply Qmult_le_compat_r. }
  assert (astype (dtype self) scaled = Py.int <$> scaled) as Heq.
  { unfold astype. apply Forall_fmap_ext_1, Forall_forall. intros x Hx.
    apply wrap_representable, max_value_representable. by apply Hb. }
  split; [done|]. rewrite Heq. apply Forall_forall. intros z Hz.
  apply list_elem_of_fmap in Hz as (x & -> & Hx). by apply Hb.
Qed.

(** * Properties of whole runs *)

Lemma store_track_Forall (P : Z → Prop) n c new (data : list Z) :
  Forall P new → Forall P data → Forall P (store_track n c new data).
Proof.
  rewrite !Forall_lookup. intros Hnew Hdata j x.
  unfold store_track. rewrite list_lookup_imap.
  destruct (data !! j) as [y|] eqn:Ey; simpl; [|done].
  intros [= <-].
  destruct ((c <=? j)%nat && ((j - c) mod n =? 0)%nat); [|by eapply Hdata].
  rewrite nth_lookup.
  destruct (new !! ((j - c) / n)%nat) as [z|] eqn:Ez; simpl.
  - by eapply Hnew.
  - by eapply Hdata.
Qed.

Lemma add_offset_range self off trk trk' :
  add_offset self off trk = Some trk' →
  Forall (representable (dtype self)) trk'.
Proof.
  intros [_ ->]%add_offset_Some. apply Forall_forall. intros z Hz.
  apply list_elem_of_fmap in Hz as (x & -> & _). apply wrap_range.
Qed.


Section Runs.

Variable np_sin : Q → Q.
Variable np_pi : Q.

Lemma resolve_tag self chan f st p st' :
  resolve np_pi self chan f st = Some (p, st') →
  p_chan p = chan + 1 ∧ p_wave p = f.
Proof.
  unfold resolve.
  destruct (get_scale self st) as [[v1 s1]|]; simpl; [|done].
  destruct (get_wavelength self s1) as [[v2 s2]|]; simpl; [|done].
  destruct (get_phase np_pi self s2) as [[v3 s3]|]; simpl; [|done].
  destruct (get_crop self s3) as [[v4 s4]|]; simpl; [|done].
  destruct (get_spos self s4) as [[v5 s5]|]; simpl; [|done].
  destruct (get_offset self s5) as [[v6 s6]|]; simpl; [|done].
  by intros [= <- <-].
Qed.

Lemma process_channels_invariant self hush chans :
  ∀ data log out st data' log' out' st',
  process_channels np_sin np_pi self hush chans (data, log, out, st)
    = Some (data', log', out', st') →
  length data' = length data ∧
  (Forall (representable (dtype self)) data →
   Forall (representable (dtype self)) data') ∧
  ∃ ps,
    log' = log ++ ps ∧
    line_tag <$> ps = mapped_of self chans ∧
    out' = if hush then out else out ++ (Channel <$> ps).
Proof.
  induction chans as [|ch chans IH];
    intros data log out st data' log' out' st' H.
  - simpl in H. injection H as <- <- <- <-. split_and!; [done..|].
    exists []. rewrite !app_nil_r. by destruct hush.
  - cbn [process_channels] in H.
    destruct (process_channel np_sin np_pi self hush ch (data, log, out, st))
      as [[[[data1 log1] out1] st1]|] eqn:E1; simpl in H; [|done].
    destruct (IH _ _ _ _ _ _ _ _ H) as (Hlen & Hrep & ps & Hlog & Htag & Hout).
    unfold mapped_of. cbn [omap list_omap]. fold (mapped_of self chans).
    destruct (get_wave self (ch + 1)) as [f|] eqn:Ew; simpl.
    + destruct (process_channel_mapped _ _ _ _ _ _ _ _ _ _ _ Ew E1)
        as (p & st'' & trk & trk' & Hres & _ & Hoff & [= -> -> -> ->]).
      destruct (resolve_tag _ _ _ _ _ _ Hres) as [Hpc Hpw].
      rewrite store_track_length in Hlen. split_and!; [done| |].
      * intros Hd. apply Hrep, store_track_Forall; [|done].
        by eapply add_offset_range.
      * exists (p :: ps). split_and!.
        -- by rewrite Hlog, <- app_assoc.
        -- rewrite fmap_cons, Htag. f_equal.
           unfold line_tag. rewrite Hpc, Hpw. f_equal. lia.
        -- rewrite Hout. unfold print. destruct hush; [done|].
           by rewrite <- app_assoc.
    + unfold process_channel in E1. rewrite Ew in E1.
      injection E1 as <- <- <- <-. split_and!; [done..|].
      by exists ps.
Qed.

(** X15: a run that returns leaves a buffer of [datalength] samples, every one
    of them representable in the output type, and has resolved one set of
    parameters per channel that has a waveform function, in ascending channel
    order.  With [hush] it has printed nothing; without, the header and then
    one line per such channel, in that order, each with the parameters
    resolved for it. *)
Theorem generate_invariant (self : WaveGen) (hush : bool) (st : Cyclers)
    (data : list Z) (plans : list Plan) (out : list Line) (st' : Cyclers) :
  generate np_sin np_pi self hush st = Some (data, plans, out, st') →
  Z.of_nat (length data) = datalength self ∧
  Forall (representable (dtype self)) data ∧
  line_tag <$> plans = mapped self ∧
  out = if hush then []
        else Header (nchan self) (dlen self) (totallength self)
             :: (Channel <$> plans).
Proof.
  unfold generate, np_zeros. intros H.
  destruct (Z.ltb_spec (datalength self) 0); simpl in H; [done|].
  destruct ((nchan self <=? 0) || negb (datalength self mod nchan self =? 0));
    [done|].
  destruct (process_channels_invariant _ _ _ _ _ _ _ _ _ _ _ H)
    as (Hlen & Hrep & ps & Hlog & Htag & Hout).
  simpl in Hlog. subst plans.
  rewrite length_replicate in Hlen. split_and!; [lia| |done|].
  - apply Hrep, Forall_forall. intros z Hz.
    apply elem_of_replicate in Hz as [-> _].
    unfold representable. destruct (dtype self); simpl; lia.
  - rewrite Hout. unfold print. by destruct hush.
Qed.




(** A spec of a single token in repeat mode gives that token on every pull,
    wherever the cursor stands. *)
Lemma cycler_single arr key st :
  accumulate arr = Some false →
  length arr = 1%nat →
  cycler_generic arr key st =
    v ← spec_value arr 0;
    Some (v, set_ptr key (cursor st key + 1) (init_key key st)).
Proof.
  intros Hacc Hlen. rewrite cycler_repeat by done.
  unfold spec_value. rewrite Hlen. change (Z.of_nat 1) with 1.
  rewrite Z.mod_1_r. simpl.
  destruct arr as [|tok [|]]; try done.
Qed.

Lemma resolve_single self chan f st :
  all_repeat self →
  Forall (λ arr, length arr = 1%nat) (specs self) →
  fst <$> resolve np_pi self chan f st = plan_at np_pi self chan f 0.
Proof.
  unfold all_repeat, specs. intros Hrep Hone.
  repeat (apply Forall_cons in Hrep as [? Hrep]).
  repeat (apply Forall_cons in Hone as [? Hone]).
  unfold resolve, plan_at, get_scale, get_wavelength, get_phase, get_crop,
    get_spos, get_offset.
  rewrite (cycler_single (scale self)) by done.
  destruct (spec_value (scale self) 0) as [sc|]; simpl; [|done].
  rewrite (cycler_single (wavelengths self)) by done.
  destruct (spec_value (wavelengths self) 0) as [wl|]; simpl; [|done].
  rewrite (cycler_single (phase self)) by done.
  destruct (spec_value (phase self) 0) as [ph|]; simpl; [|done].
  rewrite (cycler_single (crop self)) by done.
  destruct (spec_value (crop self) 0) as [cr|]; simpl; [|done].
  rewrite (cycler_single (spos self)) by done.
  destruct (spec_value (spos self) 0) as [sp|]; simpl; [|done].
  rewrite (cycler_single (offset self)) by done.
  destruct (spec_value (offset self) 0) as [off|]; simpl; [|done].
  by destruct (voltage self =? 0).
Qed.

Lemma plan_at_const self ch f i :
  Forall (λ arr, length arr = 1%nat) (specs self) →
  plan_at np_pi self ch f i = plan_at np_pi self ch f 0.
Proof.
  unfold specs. intros Hone.
  repeat (apply Forall_cons in Hone as [? Hone]).
  assert (∀ arr, length arr = 1%nat → spec_value arr i = spec_value arr 0)
    as Hsv.
  { intros arr Hl. unfold spec_value. by rewrite Hl, !Nat.mod_1_r. }
  unfold plan_at. by rewrite !Hsv.
Qed.

Lemma process_channels_single self hush chans :
  ∀ data log out st (i : nat) data' log' out' st',
  all_repeat self →
  Forall (λ arr, length arr = 1%nat) (specs self) →
  process_channels np_sin np_pi self hush chans (data, log, out, st)
    = Some (data', log', out', st') →
  ∃ ps,
    plans_from np_pi self i (mapped_of self chans) = Some ps ∧
    log' = log ++ ps.
Proof.
  induction chans as [|ch chans IH];
    intros data log out st i data' log' out' st' Hrep Hone H.
  - simpl in H. injection H as <- <- <- <-. exists []. simpl.
    by rewrite app_nil_r.
  - cbn [process_channels] in H.
    destruct (process_channel np_sin np_pi self hush ch (data, log, out, st))
      as [[[[data1 log1] out1] st1]|] eqn:E1; simpl in H; [|done].
    unfold mapped_of. cbn [omap list_omap]. fold (mapped_of self chans).
    destruct (get_wave self (ch + 1)) as [f|] eqn:Ew; simpl.
    + destruct (process_channel_mapped _ _ _ _ _ _ _ _ _ _ _ Ew E1)
        as (p & st'' & trk & trk' & Hres & _ & _ & [= -> -> -> ->]).
      pose proof (resolve_single self ch f st Hrep Hone) as Hplan.
      rewrite Hres in Hplan. simpl in Hplan.
      rewrite (plan_at_const self ch f i Hone), <- Hplan. simpl.
      destruct (IH _ _ _ _ (S i) _ _ _ _ Hrep Hone H) as (ps & Hps & ->).
      exists (p :: ps). rewrite Hps. simpl. split; [done|].
      by rewrite <- app_assoc.
    + unfold process_channel in E1. rewrite Ew in E1.
      injection E1 as <- <- <- <-. by eapply IH.
Qed.

(** X17: with specs of one token each, in repeat mode, every channel of every
    call is resolved from that token: the parameters a call resolves are
    those of a first call on a new instance, wherever the cursors stand. *)
Theorem constant_specs (self : WaveGen) (hush : bool) (st : Cyclers)
    (data : list Z) (plans : list Plan) (out : list Line) (st' : Cyclers) :
  all_repeat self →
  Forall (λ arr, length arr = 1%nat) (specs self) →
  generate np_sin np_pi self hush st = Some (data, plans, out, st') →
  plans_from np_pi self 0 (mapped self) = Some plans.
Proof.
  intros Hrep Hone H. unfold generate in H.
  destruct (np_zeros 0 (datalength self)) as [zeros|]; simpl in H; [|done].
  destruct ((nchan self <=? 0) || negb (datalength self mod nchan self =? 0));
    [done|].
  destruct (process_channels_single _ _ _ _ _ _ _ 0%nat _ _ _ _ Hrep Hone H)
    as (ps & Hps & Hlog).
  simpl in Hlog. by subst plans.
Qed.

End Runs.

(** ** The tracks of the finished buffer *)

Lemma track_ext (n c : nat) (data data' : list Z) :
  (c < n)%nat →
  (∀ j : nat, (j mod n)%nat = c → data' !! j = data !! j) →
  track n c data' = track n c data.
Proof.
  intros Hc Heq. apply list_eq. intros i.
  rewrite !track_lookup by lia.
  apply Heq. rewrite Nat.Div0.mod_add. by apply Nat.mod_small.
Qed.

Lemma NoDup_seqZ (m len : Z) : NoDup (seqZ m len).
Proof.
  apply NoDup_alt. intros i j x Hi Hj.
  apply lookup_seqZ in Hi as [-> _]. apply lookup_seqZ in Hj as [Hj _]. lia.
Qed.

Section Tracks.

Variable np_sin : Q → Q.
Variable np_pi : Q.

Lemma process_channels_tracks self hush chans :
  ∀ data log out st data' log' out' st',
  NoDup chans →
  Forall (λ ch, 0 <= ch < nchan self) chans →
  process_channels np_sin np_pi self hush chans (data, log, out, st)
    = Some (data', log', out', st') →
  ∃ ps, log' = log ++ ps ∧
    Forall (λ p,
      p_chan p - 1 ∈ chans ∧
      ∃ trk,
        place np_sin np_pi self p
          (track (Z.to_nat (nchan self)) (Z.to_nat (p_chan p - 1)) data)
          = Some trk ∧
        add_offset self (p_offset p) trk
          = Some (track (Z.to_nat (nchan self)) (Z.to_nat (p_chan p - 1))
                    data')) ps.
Proof.
  induction chans as [|ch chans IH];
    intros data log out st data' log' out' st' Hnd Hall H.
  - simpl in H. injection H as <- <- <- <-. exists []. by rewrite app_nil_r.
  - cbn [process_channels] in H.
    apply NoDup_cons in Hnd as [Hnin Hnd].
    apply Forall_cons in Hall as [Hch Hall].
    destruct (process_channel np_sin np_pi self hush ch (data, log, out, st))
      as [[[[data1 log1] out1] st1]|] eqn:E1; simpl in H; [|done].
    destruct (IH _ _ _ _ _ _ _ _ Hnd Hall H) as (ps & Hlog & Hps).
    destruct (process_channels_frame _ _ _ _ _ _ _ _ _ _ _ _ _ Hall H)
      as [_ Hframe].
    destruct (get_wave self (ch + 1)) as [f|] eqn:Ew.
    + destruct (process_channel_mapped _ _ _ _ _ _ _ _ _ _ _ Ew E1)
        as (p & st'' & trk & trk' & Hres & Hplace & Hoff & [= -> -> -> ->]).
      destruct (resolve_tag _ _ _ _ _ _ _ Hres) as [Hpc _].
      assert (p_chan p - 1 = ch) as Hc by lia.
      exists (p :: ps). split; [by rewrite Hlog, <- app_assoc|].
      apply Forall_cons. split.
      * rewrite Hc. split; [by left|]. exists trk. split; [done|].
        rewrite Hoff. f_equal. symmetry.
        rewrite (track_ext _ _
                   (store_track (Z.to_nat (nchan self)) (Z.to_nat ch)
                      trk' data)); [|lia|].
        { apply track_store_track; [lia|].
          rewrite (add_offset_length _ _ _ _ Hoff).
          rewrite (place_length _ _ _ _ _ _ Hplace). apply length_track. }
        intros j Hj. apply Hframe. intros ch' Hin _ Heq.
        rewrite Forall_forall in Hall. specialize (Hall _ Hin).
        assert (ch' = ch) as -> by lia. done.
      * eapply Forall_impl; [exact Hps|]. simpl.
        intros p' (Hin & trk0 & Hpl' & Htr'). split; [by right|].
        exists trk0. split; [|done].
        rewrite <- Hpl'. f_equal. symmetry.
        rewrite Forall_forall in Hall. specialize (Hall _ Hin).
        apply track_ext; [lia|].
        intros j Hj. apply store_track_other; [lia|].
        intros Heq. apply Hnin.
        replace ch with (p_chan p' - 1) by lia. done.
    + unfold process_channel in E1. rewrite Ew in E1.
      injection E1 as <- <- <- <-.
      exists ps. split; [done|].
      eapply Forall_impl; [exact Hps|]. simpl.
      intros p' (Hin & Hrest). split; [by right|done].
Qed.

(** X18: the finished buffer, channel by channel: for every channel that was
    processed, with the parameters resolved for it, the track of the channel
    is the placement of its waveform on a track of zeros, plus its offset,
    wrapped to the output type; the offset is one that the output type
    holds.  No later channel disturbs it. *)
Theorem generate_tracks (self : WaveGen) (hush : bool) (st : Cyclers)
    (data : list Z) (plans : list Plan) (out : list Line) (st' : Cyclers) :
  datalength self = totallength self * nchan self →
  generate np_sin np_pi self hush st = Some (data, plans, out, st') →
  Forall (λ p,
    0 ≤ p_chan p - 1 < nchan self ∧
    representable (dtype self) (p_offset p) ∧
    ∃ trk,
      place np_sin np_pi self p (replicate (Z.to_nat (totallength self)) 0)
        = Some trk ∧
      track (Z.to_nat (nchan self)) (Z.to_nat (p_chan p - 1)) data
        = (λ x, wrap (dtype self) (x + p_offset p)) <$> trk) plans.
Proof.
  intros Hdl H. unfold generate, np_zeros in H.
  destruct (Z.ltb_spec (datalength self) 0); simpl in H; [done|].
  destruct (Z.leb_spec (nchan self) 0); simpl in H; [done|].
  destruct (negb (datalength self mod nchan self =? 0)); [done|].
  destruct (process_channels_tracks _ _ _ _ _ _ _ _ _ _ _ (NoDup_seqZ _ _)
              (seqZ_range _) H) as (ps & -> & Hps).
  simpl. eapply Forall_impl; [exact Hps|]. simpl.
  intros p (Hin & trk & Hplace & Hoff).
  pose proof (seqZ_range (nchan self)) as Hr.
  rewrite Forall_forall in Hr. specialize (Hr _ Hin).
  apply add_offset_Some in Hoff as [Hrep Htrack].
  split; [done|]. split; [done|]. exists trk. split; [|done].
  rewrite <- Hplace. f_equal.
  apply list_eq. intros i.
  assert (0 ≤ totallength self) as HT by nia.
  rewrite track_lookup by lia.
  destruct (decide (i < Z.to_nat (totallength self))%nat) as [Hi|Hi].
  - rewrite !lookup_replicate_2; [done|nia|done].
  - rewrite !(proj2 (lookup_ge_None _ _)); [done| |];
      rewrite length_replicate; nia.
Qed.

End Tracks.

(** ** Runs of the further properties on concrete configurations *)

Lemma waveform_length_witness :
  ∃ self,
    init (mkArgs 1 1 ["4"] None 2 "RAMP:ALL" ["0"] ["1"] ["0"] ["0"] 10 ["0"])
      = Some self ∧
    RAMP ≠ NULL ∧
    (-1 < 0 → gen sin_q pi_q RAMP self (-1) 0 = None) ∧
    (0 ≤ 4 →
       ∃ ys, gen sin_q pi_q RAMP self 4 0 = Some ys ∧
             length ys = Z.to_nat 4).
Proof.
  eexists. split; [vm_compute; reflexivity|]. split; [discriminate|].
  split.
  - apply (waveform_length sin_q pi_q RAMP _ (-1) 0). discriminate.
  - apply (waveform_length sin_q pi_q RAMP _ 4 0). discriminate.
Defined.

Lemma place_wellformed_witness :
  ∃ self,
    init (mkArgs 1 1 ["4"] None 2 "RAMP:ALL" ["0"] ["1"] ["1"] ["2"] 10 ["1"])
      = Some self ∧
    p_wave (mkPlan 1 RAMP 3276 0 2 1 4 1) ≠ NULL ∧
    0 ≤ p_spos (mkPlan 1 RAMP 3276 0 2 1 4 1) ∧
    0 ≤ p_crop (mkPlan 1 RAMP 3276 0 2 1 4 1)
      ≤ p_wavelength (mkPlan 1 RAMP 3276 0 2 1 4 1) ∧
    Z.of_nat (length [0; 0; 0; 0]) = totallength self ∧
    place sin_q pi_q self (mkPlan 1 RAMP 3276 0 2 1 4 1) [0; 0; 0; 0]
      = Some [0; 0; 0; 10922] ∧
    ∃ ys trk',
      gen sin_q pi_q RAMP self 4 0 = Some ys ∧
      length ys = Z.to_nat 4 ∧
      place sin_q pi_q self (mkPlan 1 RAMP 3276 0 2 1 4 1) [0; 0; 0; 0]
        = Some trk' ∧
      length trk' = length [0; 0; 0; 0] ∧
      0 ≤ d0 self (mkPlan 1 RAMP 3276 0 2 1 4 1)
        ≤ d1 self (mkPlan 1 RAMP 3276 0 2 1 4 1) ∧
      d1 self (mkPlan 1 RAMP 3276 0 2 1 4 1) ≤ totallength self ∧
      (∀ i : nat,
         d0 self (mkPlan 1 RAMP 3276 0 2 1 4 1) ≤ Z.of_nat i
           < d1 self (mkPlan 1 RAMP 3276 0 2 1 4 1) →
         trk' !! i
         = astype (dtype self)
             ((λ y, y * (inject_Z (max_value self) * 1))%Q <$> ys)
           !! (i - Z.to_nat (d0 self (mkPlan 1 RAMP 3276 0 2 1 4 1)))%nat) ∧
      (∀ i : nat,
         Z.of_nat i < d0 self (mkPlan 1 RAMP 3276 0 2 1 4 1)
           ∨ d1 self (mkPlan 1 RAMP 3276 0 2 1 4 1) ≤ Z.of_nat i →
         trk' !! i = [0; 0; 0; 0] !! i).
Proof.
  eexists. split; [vm_compute; reflexivity|]. split; [discriminate|].
  split; [discriminate|]. split; [split; discriminate|].
  split; [vm_compute; reflexivity|]. split; [vm_compute; reflexivity|].
  apply (place_wellformed sin_q pi_q _ (mkPlan 1 RAMP 3276 0 2 1 4 1)
           [0; 0; 0; 0]);
    [discriminate | discriminate | split; discriminate | vm_compute; reflexivity].
Defined.

Lemma scaled_samples_fit_witness :
  ∃ self,
    init (mkArgs 1 1 ["4"] None 2 "RAMP:ALL" ["0"] ["1"] ["0"] ["0"] 10 ["0"])
      = Some self ∧
    (0 <= 1 # 2)%Q ∧ (1 # 2 <= 1)%Q ∧
    Forall (λ y, (- (1) <= y ∧ y <= 1)%Q) [0; 1 # 3; -1]%Q ∧
    let scaled :=
      (λ y, (y * (inject_Z (max_value self) * (1 # 2)))%Q) <$> [0; 1 # 3; -1]%Q in
    astype (dtype self) scaled = Py.int <$> scaled ∧
    Forall (λ z, - max_value self ≤ z ≤ max_value self)
      (astype (dtype self) scaled).
Proof.
  assert (Forall (λ y, (- (1) <= y ∧ y <= 1)%Q) [0; 1 # 3; -1]%Q) as Hys.
  { repeat (constructor; [split; discriminate|]). constructor. }
  eexists. split; [vm_compute; reflexivity|].
  split; [discriminate|]. split; [discriminate|]. split; [exact Hys|].
  apply (scaled_samples_fit _ (1 # 2)%Q [0; 1 # 3; -1]%Q);
    [discriminate | discriminate | exact Hys].
Defined.

Lemma generate_invariant_witness :
  ∃ self data plans out st',
    init (mkArgs 3 1 ["4"] None 2 "SINE:1/RAMP:3" ["0"] ["1"] ["0"] ["0"] 10 ["5"])
      = Some self ∧
    generate sin_q pi_q self false fresh = Some (data, plans, out, st') ∧
    mapped self = [(0, SINE); (2, RAMP)] ∧
    Z.of_nat (length data) = datalength self ∧
    Forall (representable (dtype self)) data ∧
    line_tag <$> plans = mapped self ∧
    out = (if false then []
           else Header (nchan self) (dlen self) (totallength self)
                :: (Channel <$> plans)).
Proof.
  eexists _, _, _, _, _.
  split; [vm_compute; reflexivity|].
  split; [vm_compute; reflexivity|].
  split; [vm_compute; reflexivity|].
  eapply (generate_invariant sin_q pi_q _ false fresh).
  vm_compute; reflexivity.
Defined.


Lemma constant_specs_witness :
  ∃ self data1 plans1 out1 st1 data2 plans2 out2 st2,
    init (mkArgs 2 1 ["4"] None 2 "RAMP:ALL" ["0"] ["1"] ["1"] ["2"] 10 ["0"])
      = Some self ∧
    generate sin_q pi_q self false fresh = Some (data1, plans1, out1, st1) ∧
    cursor st1 "scale" = 2 ∧
    all_repeat self ∧
    Forall (λ arr, length arr = 1%nat) (specs self) ∧
    generate sin_q pi_q self false st1 = Some (data2, plans2, out2, st2) ∧
    plans_from pi_q self 0 (mapped self) = Some plans2.
Proof.
  eexists _, _, _, _, _, _, _, _, _.
  split; [vm_compute; reflexivity|].
  split; [vm_compute; reflexivity|].
  split; [vm_compute; reflexivity|].
  lazymatch goal with
  | |- all_repeat ?s ∧ _ =>
      assert (all_repeat s) as Hrep
        by (repeat (apply Forall_cons; split; [vm_compute; reflexivity|]);
            constructor);
      assert (Forall (λ arr, length arr = 1%nat) (specs s)) as Hone
        by (repeat (apply Forall_cons; split; [vm_compute; reflexivity|]);
            constructor)
  end.
  split; [exact Hrep|]. split; [exact Hone|].
  lazymatch goal with
  | |- generate _ _ ?s false ?st = Some (?d, ?pl, ?o, ?st2) ∧ _ =>
      assert (generate sin_q pi_q s false st = Some (d, pl, o, st2)) as Hg
        by (vm_compute; reflexivity);
      split; [exact Hg|];
      exact (constant_specs sin_q pi_q s false st d pl o st2 Hrep Hone Hg)
  end.
Defined.

Lemma generate_tracks_witness :
  ∃ self data plans out st',
    init (mkArgs 2 1 ["4"] None 2 "RAMP:ALL" ["0"] ["1"] ["1"] ["2"] 10 ["1"])
      = Some self ∧
    datalength self = totallength self * nchan self ∧
    generate sin_q pi_q self false fresh = Some (data, plans, out, st') ∧
    length plans = 2%nat ∧
    Forall (λ p,
      0 ≤ p_chan p - 1 < nchan self ∧
      representable (dtype self) (p_offset p) ∧
      ∃ trk,
        place sin_q pi_q self p (replicate (Z.to_nat (totallength self)) 0)
          = Some trk ∧
        track (Z.to_nat (nchan self)) (Z.to_nat (p_chan p - 1)) data
          = (λ x, wrap (dtype self) (x + p_offset p)) <$> trk) plans.
Proof.
  eexists _, _, _, _, _.
  split; [vm_compute; reflexivity|].
  split; [vm_compute; reflexivity|].
  split; [vm_compute; reflexivity|].
  split; [vm_compute; reflexivity|].
  eapply (generate_tracks sin_q pi_q _ false fresh);
    vm_compute; reflexivity.
Defined.
